(** * mailgun/ttlmap: a capacity-bounded map whose entries expire

    A shallow embedding of [src/ttlmap.go].  The container is a Go map
    from keys to [*mapElement] together with a min-priority queue of
    [*minheap.Element] handles ordered by expiry time (epoch seconds).
    A map element and its handle point at each other, so the embedding
    keeps both kinds of object in a store indexed by pointers and the
    operations read and write through those pointers.

    The embedding follows [ttlmap.go]; the sources also hold an earlier
    revision of the same type, without lock, callback and [Increment],
    which module [Legacy] embeds.

    Conventions.
    - Go's [int] is taken to be 64 bits wide; arithmetic on it wraps
      ([wrap64]).
    - The [sync.RWMutex] is not modelled: every operation runs alone.
    - A run-time panic is the result [None]. *)

From Stdlib Require Import ZArith Lia.
From stdpp Require Import gmap strings list fin_maps.

Local Open Scope Z_scope.

(** ** Machine integers *)

Definition wrap64 (z : Z) : Z := (z + 2 ^ 63) mod 2 ^ 64 - 2 ^ 63.

Definition int_min : Z := - 2 ^ 63.
Definition int_max : Z := 2 ^ 63 - 1.

(** [a + b] on Go's [int]. *)
Definition add_int (a b : Z) : Z := wrap64 (a + b).

(** ** Values, errors *)

(** What an [interface{}] may hold, as far as the container can tell:
    the type assertion [.(int)] succeeds on [VInt] only. *)
Inductive val : Type :=
  | VNil
  | VInt (n : Z)
  | VString (s : string)
  | VBool (b : bool).

#[global] Instance val_eq_dec : EqDecision val.
Proof. solve_decision. Defined.

#[global] Instance val_inhabited : Inhabited val := populate VNil.

(** The three [fmt.Errorf] results of the package, by message:
    "Capacity should be > 0", "Please pass timeProvider",
    "ttlSeconds should be >= 0, got %d" and
    "Expected existing value to be integer, got %T". *)
Inductive error : Type :=
  | InvalidCapacity
  | MissingTimeProvider
  | InvalidTTL (ttlSeconds : Z)
  | TypeMismatch (got : val).

#[global] Instance error_eq_dec : EqDecision error.
Proof. solve_decision. Defined.

(** ** Time

    [time.Time] and [time.Duration] belong to Go's library.  An instant
    is its number of nanoseconds since the Unix epoch, a duration an
    [int64] number of nanoseconds. *)

Abbreviation Time := Z (only parsing).
Abbreviation Duration := Z (only parsing).

Definition Second : Duration := 1000000000.

(** [a * b] on [time.Duration], an [int64]. *)
Definition mul_duration (a b : Duration) : Duration := wrap64 (a * b).

(** [t.Add(d)] *)
Definition Add (t : Time) (d : Duration) : Time := t + d.

(** [t.Unix()]: whole seconds since the epoch, rounding down. *)
Definition Unix (t : Time) : Z := t / 1000000000.

(** ** Pointers and the two structs *)

Abbreviation ptr := positive (only parsing).

(** [minheap.Element]: [Value] holds the [*mapElement]. *)
Record Element : Type := mkElement {
  Priority : Z;
  Value : ptr;
}.

Record mapElement : Type := mkMapElement {
  key : string;
  value : val;
  heapEl : ptr;
}.

#[global] Instance Element_inhabited : Inhabited Element :=
  populate (mkElement 0 1%positive).
#[global] Instance mapElement_inhabited : Inhabited mapElement :=
  populate (mkMapElement EmptyString VNil 1%positive).

(** ** The container and the store it lives in

    The first five fields are the fields of the Go struct [TtlMap]
    (without its lock).  [TimeProvider] is the instant the provider's
    [UtcNow()] reports; the environment may change it between two
    operations.  [onExpire] is [true] when a callback is registered;
    every invocation of the callback is appended to [fired].
    [mapElements] and [heapElements] are the store: the objects the
    pointers of the container lead to. *)
Record State : Type := mkState {
  capacity : Z;
  elements : gmap string ptr;
  expiryTimes : list ptr;
  TimeProvider : Time;
  onExpire : bool;
  mapElements : gmap ptr mapElement;
  heapElements : gmap ptr Element;
  fired : list (string * val);
}.

Definition set_elements (f : gmap string ptr → gmap string ptr) (m : State) : State :=
  mkState (capacity m) (f (elements m)) (expiryTimes m) (TimeProvider m)
          (onExpire m) (mapElements m) (heapElements m) (fired m).

Definition set_expiryTimes (f : list ptr → list ptr) (m : State) : State :=
  mkState (capacity m) (elements m) (f (expiryTimes m)) (TimeProvider m)
          (onExpire m) (mapElements m) (heapElements m) (fired m).

Definition set_mapElements (f : gmap ptr mapElement → gmap ptr mapElement) (m : State) : State :=
  mkState (capacity m) (elements m) (expiryTimes m) (TimeProvider m)
          (onExpire m) (f (mapElements m)) (heapElements m) (fired m).

Definition set_heapElements (f : gmap ptr Element → gmap ptr Element) (m : State) : State :=
  mkState (capacity m) (elements m) (expiryTimes m) (TimeProvider m)
          (onExpire m) (mapElements m) (f (heapElements m)) (fired m).

Definition set_fired (f : list (string * val) → list (string * val)) (m : State) : State :=
  mkState (capacity m) (elements m) (expiryTimes m) (TimeProvider m)
          (onExpire m) (mapElements m) (heapElements m) (f (fired m)).

(** The environment moves the clock. *)
Definition set_clock (t : Time) (m : State) : State :=
  mkState (capacity m) (elements m) (expiryTimes m) t
          (onExpire m) (mapElements m) (heapElements m) (fired m).

(** Reading through a pointer. *)
Definition mapElementAt (m : State) (p : ptr) : mapElement := mapElements m !!! p.
Definition ElementAt (m : State) (p : ptr) : Element := heapElements m !!! p.

(** ** The priority queue *)

(** Modelled from the spec: package [github.com/mailgun/minheap] is a
    dependency and not part of the sources.  Section 4.1 of the
    specification gives its contract: push a handle, peek and pop a
    handle of minimal priority, update the priority of a handle, remove
    a handle; ties are broken arbitrarily.  The queue is the list of its
    handles, in the order they were pushed; the priorities are read
    from the [Element] objects.  Among handles of equal minimal
    priority the first of the list is taken. *)
Definition NewMinHeap : list ptr := [].

Definition PushEl (h : list ptr) (el : ptr) : list ptr := h ++ [el].

Fixpoint remove_el (el : ptr) (h : list ptr) : list ptr :=
  match h with
  | [] => []
  | x :: t => if decide (x = el) then t else x :: remove_el el t
  end.

Definition min_el (mem : gmap ptr Element) (a b : ptr) : ptr :=
  if Priority (mem !!! b) <? Priority (mem !!! a) then b else a.

(** [None] stands for the panic of peeking into an empty queue. *)
Definition PeekEl (mem : gmap ptr Element) (h : list ptr) : option ptr :=
  match h with
  | [] => None
  | x :: t => Some (fold_left (min_el mem) t x)
  end.

Definition PopEl (mem : gmap ptr Element) (h : list ptr) : option (ptr * list ptr) :=
  match PeekEl mem h with
  | None => None
  | Some el => Some (el, remove_el el h)
  end.

Definition RemoveEl (h : list ptr) (el : ptr) : list ptr := remove_el el h.

(** [UpdateEl] writes the new priority into the [Element]; the unordered
    list needs no repair. *)
Definition UpdateEl (mem : gmap ptr Element) (el : ptr) (priority : Z) : gmap ptr Element :=
  <[el := mkElement priority (Value (mem !!! el))]> mem.

(** ** Construction *)

(** The two options of the package.  [Clock None] and
    [CallOnExpire false] pass a nil provider and a nil callback. *)
Inductive TtlMapOption : Type :=
  | Clock (c : option Time)
  | CallOnExpire (cb : bool).

(** The container while [NewMap] builds it: the provider may still be
    nil. *)
Definition apply_option (o : TtlMapOption) (acc : option Time * bool) : option Time * bool :=
  match o with
  | Clock c => (c, acc.2)
  | CallOnExpire cb => (acc.1, cb)
  end.

(** [realtime] is what [timetools.RealTime] reports, used when no option
    installs a provider. *)
Definition NewMap (realtime : Time) (capacity : Z) (opts : list TtlMapOption) : error + State :=
  if capacity <=? 0 then inl InvalidCapacity
  else
    let acc := fold_left (λ acc o, apply_option o acc) opts (None, false) in
    inr (mkState capacity ∅ NewMinHeap (default realtime acc.1) acc.2 ∅ ∅ []).

Definition NewMapWithProvider (realtime : Time) (capacity : Z) (timeProvider : option Time) : error + State :=
  match timeProvider with
  | None => inl MissingTimeProvider
  | Some _ => NewMap realtime capacity [Clock timeProvider]
  end.

(** ** Clock readings *)

Definition now (m : State) : Z := Unix (TimeProvider m).

Definition toEpochSeconds (m : State) (ttlSeconds : Z) : error + Z :=
  if ttlSeconds <=? 0 then inl (InvalidTTL ttlSeconds)
  else inr (Unix (Add (TimeProvider m) (mul_duration Second ttlSeconds))).

Definition shouldExpire (m : State) (mapEl : ptr) : bool :=
  Priority (ElementAt m (heapEl (mapElementAt m mapEl))) <=? now m.

(** ** Eviction *)

Definition len (m : State) : Z := Z.of_nat (size (elements m)).

(** One popped handle: drop it from the queue and its key from the
    map. *)
Definition drop_popped (el : ptr) (h' : list ptr) (m : State) : State :=
  let mapEl := Value (ElementAt m el) in
  set_elements (delete (key (mapElementAt m mapEl))) (set_expiryTimes (λ _, h') m).

Fixpoint removeExpired_loop (now : Z) (iterations : nat) (removed : Z) (m : State)
  : option (Z * State) :=
  match iterations with
  | O => Some (removed, m)
  | S i =>
    if len m =? 0 then Some (removed, m)
    else
      match PeekEl (heapElements m) (expiryTimes m) with
      | None => None
      | Some heapEl =>
        if Priority (ElementAt m heapEl) >? now then Some (removed, m)
        else
          match PopEl (heapElements m) (expiryTimes m) with
          | None => None
          | Some (_, h') =>
            removeExpired_loop now i (removed + 1) (drop_popped heapEl h' m)
          end
      end
  end.

Definition removeExpired (iterations : Z) (m : State) : option (Z * State) :=
  removeExpired_loop (now m) (Z.to_nat iterations) 0 m.

Fixpoint removeLastUsed_loop (iterations : nat) (m : State) : option State :=
  match iterations with
  | O => Some m
  | S i =>
    if len m =? 0 then Some m
    else
      match PopEl (heapElements m) (expiryTimes m) with
      | None => None
      | Some (heapEl, h') => removeLastUsed_loop i (drop_popped heapEl h' m)
      end
  end.

Definition removeLastUsed (iterations : Z) (m : State) : option State :=
  removeLastUsed_loop (Z.to_nat iterations) m.

Definition freeSpace (count : Z) (m : State) : option State :=
  match removeExpired count m with
  | None => None
  | Some (removed, m1) =>
    if removed >=? count then Some m1
    else removeLastUsed (count - removed) m1
  end.

(** ** The public operations *)

(** The new-key branch of [Set] after room has been made: allocate the
    handle and the map element, tie them together, enter both. *)
Definition insert_new (key : string) (value : val) (expiryTime : Z) (m : State) : State :=
  let heapEl := fresh (dom (heapElements m)) in
  let mapEl := fresh (dom (mapElements m)) in
  mkState (capacity m)
          (<[key := mapEl]> (elements m))
          (PushEl (expiryTimes m) heapEl)
          (TimeProvider m)
          (onExpire m)
          (<[mapEl := mkMapElement key value heapEl]> (mapElements m))
          (<[heapEl := mkElement expiryTime mapEl]> (heapElements m))
          (fired m).

(** [mapEl.value = value] *)
Definition store_value (mapEl : ptr) (value : val) (m : State) : State :=
  let old := mapElementAt m mapEl in
  set_mapElements (<[mapEl := mkMapElement (key old) value (heapEl old)]>) m.

(** [mapEl.value = value; m.expiryTimes.UpdateEl(mapEl.heapEl, expiryTime)],
    the existing-key branch of [Set] and the tail of [increment]. *)
Definition overwrite (mapEl : ptr) (value : val) (expiryTime : Z) (m : State) : State :=
  let m1 := store_value mapEl value m in
  set_heapElements (λ mem, UpdateEl mem (heapEl (mapElementAt m1 mapEl)) expiryTime) m1.

(** [Set]; the name is a keyword of Rocq, hence the underscore. *)
Definition Set_ (key : string) (value : val) (ttlSeconds : Z) (m : State)
  : option (option error * State) :=
  match toEpochSeconds m ttlSeconds with
  | inl err => Some (Some err, m)
  | inr expiryTime =>
    match elements m !! key with
    | None =>
      match (if len m >=? capacity m then freeSpace 1 m else Some m) with
      | None => None
      | Some m1 => Some (None, insert_new key value expiryTime m1)
      end
    | Some mapEl => Some (None, overwrite mapEl value expiryTime m)
    end
  end.

Definition Len (m : State) : Z := len m.

Definition get (key : string) (m : State) : option ptr := elements m !! key.

Definition expireElement (mapEl : ptr) (m : State) : bool * State :=
  let el := mapElementAt m mapEl in
  match elements m !! key el with
  | None => (false, m)
  | Some _ =>
    let m1 := if onExpire m then set_fired (λ l, l ++ [(key el, value el)]) m else m in
    let m2 := set_elements (delete (key el)) m1 in
    (true, set_expiryTimes (λ h, RemoveEl h (heapEl el)) m2)
  end.

Definition Get (key : string) (m : State) : (val * bool) * State :=
  match get key m with
  | None => ((VNil, false), m)
  | Some mapEl =>
    if shouldExpire m mapEl then ((VNil, false), (expireElement mapEl m).2)
    else ((value (mapElementAt m mapEl), true), m)
  end.

Definition increment (mapEl : ptr) (value : Z) (expiryTime : Z) (m : State)
  : (Z * option error) * State :=
  let 'mkMapElement _ stored _ := mapElementAt m mapEl in
  match stored with
  | VInt currentValue =>
    let currentValue := add_int currentValue value in
    ((currentValue, None), overwrite mapEl (VInt currentValue) expiryTime m)
  | other => ((0, Some (TypeMismatch other)), m)
  end.

Definition Increment (key : string) (value : Z) (ttlSeconds : Z) (m : State)
  : option ((Z * option error) * State) :=
  match toEpochSeconds m ttlSeconds with
  | inl err => Some ((0, Some err), m)
  | inr expiryTime =>
    match get key m with
    | None =>
      match Set_ key (VInt value) ttlSeconds m with
      | None => None
      | Some (_, m1) => Some ((value, None), m1)
      end
    | Some mapEl =>
      if shouldExpire m mapEl then
        match Set_ key (VInt value) ttlSeconds m with
        | None => None
        | Some (_, m1) => Some ((value, None), m1)
        end
      else Some (increment mapEl value expiryTime m)
    end
  end.

Definition GetInt (key : string) (m : State) : (Z * bool * option error) * State :=
  match Get key m with
  | ((_, false), m1) => ((0, false, None), m1)
  | ((valueI, true), m1) =>
    match valueI with
    | VInt value => ((value, true, None), m1)
    | other => ((0, false, Some (TypeMismatch other)), m1)
    end
  end.

(** ** What a caller can observe of a key

    The value stored under a key and the expiry time of its handle, both
    read through the pointers as [Get] reads them. *)
Definition entry (m : State) (k : string) : option (val * Z) :=
  match elements m !! k with
  | None => None
  | Some mapEl =>
    let el := mapElementAt m mapEl in
    Some (value el, Priority (ElementAt m (heapEl el)))
  end.

(** ** Well-formed containers

    The map and the queue describe the same set of entries: every key
    leads to a map element that carries this key and whose handle is in
    the queue and points back; every handle of the queue leads back to
    a key of the map; no handle is queued twice, so there are as many
    handles as keys. *)
Record inv (m : State) : Prop := mkInv {
  inv_nodup : NoDup (expiryTimes m);
  inv_count : length (expiryTimes m) = size (elements m);
  inv_map : ∀ k mapEl, elements m !! k = Some mapEl →
    ∃ el hel, mapElements m !! mapEl = Some el ∧ key el = k ∧
              heapEl el ∈ expiryTimes m ∧
              heapElements m !! heapEl el = Some hel ∧ Value hel = mapEl;
  inv_heap : ∀ h, h ∈ expiryTimes m →
    ∃ hel el, heapElements m !! h = Some hel ∧
              mapElements m !! Value hel = Some el ∧ heapEl el = h ∧
              elements m !! key el = Some (Value hel);
}.

(** The capacity bound I1. *)
Definition bounded (m : State) : Prop := 0 < capacity m ∧ len m ≤ capacity m.

(** ** Runs of the container *)

Inductive Op : Type :=
  | OSet (key : string) (value : val) (ttlSeconds : Z)
  | OGet (key : string)
  | OIncrement (key : string) (value : Z) (ttlSeconds : Z)
  | OGetInt (key : string)
  | OLen
  | OClock (t : Time).

(** One call, results dropped; [None] when the call panics. *)
Definition step (o : Op) (m : State) : option State :=
  match o with
  | OSet k v ttl => snd <$> Set_ k v ttl m
  | OGet k => Some (Get k m).2
  | OIncrement k d ttl => snd <$> Increment k d ttl m
  | OGetInt k => Some (GetInt k m).2
  | OLen => Some m
  | OClock t => Some (set_clock t m)
  end.

Fixpoint run (ops : list Op) (m : State) : option State :=
  match ops with
  | [] => Some m
  | o :: rest =>
    match step o m with
    | None => None
    | Some m1 => run rest m1
    end
  end.

(** [Set] calls only, each at a clock reading of the environment's
    choice. *)
Definition set_call (c : Time * string * val * Z) : list Op :=
  let '(t, k, v, ttl) := c in [OClock t; OSet k v ttl].

Definition set_calls (cs : list (Time * string * val * Z)) : list Op :=
  concat (map set_call cs).

(** The largest TTL whose duration in nanoseconds fits an [int64]. *)
Definition max_ttl : Z := 9223372036.

(** The key a queued handle stands for. *)
Definition victim (m : State) (el : ptr) : string :=
  key (mapElementAt m (Value (ElementAt m el))).

(** [m'] is [m] with [r] entries evicted: the others are stored as
    before and none of them expires earlier than an evicted one.
    Nothing else changes; no callback is invoked. *)
Record evicts (m m' : State) (r : Z) : Prop := mkEvicts {
  ev_inv : inv m';
  ev_len : len m' = len m - r;
  ev_count : 0 ≤ r;
  ev_kept : ∀ k x, entry m' k = Some x → entry m k = Some x;
  ev_order : ∀ k v p k' v' p',
    entry m k = Some (v, p) → entry m' k = None →
    entry m' k' = Some (v', p') → p ≤ p';
  ev_fired : fired m' = fired m;
  ev_capacity : capacity m' = capacity m;
  ev_clock : TimeProvider m' = TimeProvider m;
  ev_onExpire : onExpire m' = onExpire m;
}.

(** A fresh container put through a list of calls. *)
Definition new_then (realtime : Time) (capacity : Z) (opts : list TtlMapOption)
    (ops : list Op) : option State :=
  match NewMap realtime capacity opts with
  | inl _ => None
  | inr m => run ops m
  end.

(** What a caller sees of some keys: the size, the entries, the
    callback invocations so far. *)
Definition observe (ks : list string) (m : State)
  : Z * list (option (val * Z)) * list (string * val) :=
  (Len m, map (entry m) ks, fired m).

(** ** The invariants I2 and I3 in the words of the specification *)

(** I2: every stored key has exactly one handle in the queue, every
    queued handle stands for a stored key, and no handle is queued
    twice. *)
Definition bijection (m : State) : Prop :=
  (∀ k, is_Some (elements m !! k) →
        ∃ h, h ∈ expiryTimes m ∧ victim m h = k ∧
             ∀ h', h' ∈ expiryTimes m → victim m h' = k → h' = h) ∧
  (∀ h, h ∈ expiryTimes m → is_Some (elements m !! victim m h)) ∧
  NoDup (expiryTimes m) ∧
  length (expiryTimes m) = size (elements m).

(** I3: the handle queued for a key is the very handle its map element
    holds, so the priority the queue orders by is the expiry time that
    [shouldExpire] reads for the key. *)
Definition priority_is_expiry (m : State) : Prop :=
  ∀ k mapEl h,
    elements m !! k = Some mapEl → h ∈ expiryTimes m → victim m h = k →
    h = heapEl (mapElementAt m mapEl) ∧
    entry m k = Some (value (mapElementAt m mapEl), Priority (ElementAt m h)).

(** ** Sample containers *)

(** [NewMap 0 2 [Clock (Some 0); CallOnExpire true]] *)
Definition sample_new : State := mkState 2 ∅ [] 0 true ∅ ∅ [].

Definition sample_ops : list Op :=
  [OSet "a" (VInt 1) 10; OSet "b" (VString "string") 20].

(** Capacity 2, clock at 0, ["a"] holding 1 until 10 and ["b"] holding
    a string until 20. *)
Definition sample : State := default sample_new (run sample_ops sample_new).

(** ** Which calls write a key *)

(** [Set] and [Increment] on [k] are the calls that store something
    under [k]. *)
Definition writes (k : string) (o : Op) : bool :=
  match o with
  | OSet k' _ _ => bool_decide (k' = k)
  | OIncrement k' _ _ => bool_decide (k' = k)
  | _ => false
  end.

(** ** The earlier revision of the container

    [src/unnamed/part_000] holds an earlier revision of the type: no
    lock, no callback, no [Increment], no check of the TTL, and a
    constructor that installs no time provider. *)
Module Legacy.

(** The struct [TtlMap] of that revision.  [state] carries its
    [capacity], its [items] (the field [elements] of [State]), its
    [expiryTimes] and the store; a [mapItem] is a [mapElement] whose
    field [el] is called [value] here.  The fields [TimeProvider],
    [onExpire] and [fired] of [state] play no part.  [timeProvider] is
    the instant the provider reports, [None] while the field is nil. *)
Record TtlMap : Type := mkTtlMap {
  state : State;
  timeProvider : option Time;
}.

Definition with_state (s : State) (m : TtlMap) : TtlMap :=
  mkTtlMap s (timeProvider m).

(** What [Get] returns as its [interface{}]: the nil [*mapItem] it
    passes on for a key that is not stored, or a value ([Stored VNil]
    being the nil interface). *)
Inductive GetValue : Type :=
  | NilMapItem
  | Stored (v : val).

Definition NewMap (capacity : Z) : error + TtlMap :=
  if capacity <=? 0 then inl InvalidCapacity
  else inr (mkTtlMap (mkState capacity ∅ NewMinHeap 0 false ∅ ∅ []) None).

(** The loop is the one of [removeExpired]; reading the clock of a nil
    provider panics. *)
Definition removeExpiredItems (iterations : Z) (m : TtlMap) : option (Z * TtlMap) :=
  match timeProvider m with
  | None => None
  | Some t =>
    match removeExpired_loop (Unix t) (Z.to_nat iterations) 0 (state m) with
    | None => None
    | Some (removed, s) => Some (removed, with_state s m)
    end
  end.

(** The loop is the one of [removeLastUsed]. *)
Definition removeLeastUsedItems (iterations : Z) (m : TtlMap) : option TtlMap :=
  match removeLastUsed_loop (Z.to_nat iterations) (state m) with
  | None => None
  | Some s => Some (with_state s m)
  end.

Definition freeSpace (items : Z) (m : TtlMap) : option TtlMap :=
  match removeExpiredItems items m with
  | None => None
  | Some (removed, m1) =>
    if removed >=? items then Some m1
    else removeLeastUsedItems items m1
  end.

Definition Set_ (key : string) (el : val) (ttlSeconds : Z) (m : TtlMap) : option TtlMap :=
  match (if len (state m) >? capacity (state m) then freeSpace 1 m else Some m) with
  | None => None
  | Some m1 =>
    match timeProvider m1 with
    | None => None
    | Some t =>
      let expiryTime := Unix (Add t (mul_duration Second ttlSeconds)) in
      match elements (state m1) !! key with
      | None => Some (with_state (insert_new key el expiryTime (state m1)) m1)
      | Some item => Some (with_state (overwrite item el expiryTime (state m1)) m1)
      end
    end
  end.

Definition expireItem (item : ptr) (m : TtlMap) : option (bool * TtlMap) :=
  match timeProvider m with
  | None => None
  | Some t =>
    let now := Unix t in
    let it := mapElementAt (state m) item in
    if Priority (ElementAt (state m) (heapEl it)) >? now then Some (false, m)
    else
      Some (true,
            with_state
              (set_expiryTimes (λ h, RemoveEl h (heapEl it))
                 (set_elements (delete (key it)) (state m))) m)
  end.

Definition Get (key : string) (m : TtlMap) : option ((GetValue * bool) * TtlMap) :=
  match elements (state m) !! key with
  | None => Some ((NilMapItem, false), m)
  | Some item =>
    match expireItem item m with
    | None => None
    | Some (true, m1) => Some ((Stored VNil, false), m1)
    | Some (false, m1) => Some ((Stored (value (mapElementAt (state m1) item)), true), m1)
    end
  end.

(** Calls on the container; [OProvider] is the assignment to the field
    [timeProvider], which code of the package can make. *)
Inductive Op : Type :=
  | OSet (key : string) (el : val) (ttlSeconds : Z)
  | OGet (key : string)
  | OProvider (p : option Time).

Definition step (o : Op) (m : TtlMap) : option TtlMap :=
  match o with
  | OSet k v ttl => Set_ k v ttl m
  | OGet k => snd <$> Get k m
  | OProvider p => Some (mkTtlMap (state m) p)
  end.

Fixpoint run (ops : list Op) (m : TtlMap) : option TtlMap :=
  match ops with
  | [] => Some m
  | o :: rest =>
    match step o m with
    | None => None
    | Some m1 => run rest m1
    end
  end.

(** The calls that leave a provider installed. *)
Definition keeps_provider (o : Op) : bool :=
  match o with
  | OProvider None => false
  | _ => true
  end.

(** A container of capacity 1 whose provider reads 0, empty and with
    ["a"] stored until 10. *)
Definition sample : TtlMap :=
  mkTtlMap (mkState 1 ∅ NewMinHeap 0 false ∅ ∅ []) (Some 0).

Definition sample_full : TtlMap := default sample (Set_ "a" (VInt 1) 10 sample).

End Legacy.

(** * Proofs *)

(** ** Machine integers and time *)

Lemma wrap64_id z : int_min ≤ z ≤ int_max → wrap64 z = z.
Proof.
  unfold wrap64, int_min, int_max. intros Hz.
  rewrite Z.mod_small by lia. lia.
Qed.

Lemma Unix_add_seconds t s : Unix (Add t (Second * s)) = Unix t + s.
Proof.
  unfold Unix, Add, Second.
  rewrite (Z.mul_comm 1000000000 s), Z.div_add by lia. reflexivity.
Qed.

Lemma toEpochSeconds_ok m ttl :
  0 < ttl ≤ max_ttl → toEpochSeconds m ttl = inr (now m + ttl).
Proof.
  unfold toEpochSeconds, max_ttl, mul_duration, now. intros Httl.
  destruct (Z.leb_spec ttl 0) as [?|_]; [lia|].
  rewrite wrap64_id by (unfold int_min, int_max, Second; lia).
  by rewrite Unix_add_seconds.
Qed.

Lemma toEpochSeconds_invalid m ttl :
  ttl ≤ 0 → toEpochSeconds m ttl = inl (InvalidTTL ttl).
Proof.
  unfold toEpochSeconds. intros Httl.
  destruct (Z.leb_spec ttl 0); [done | lia].
Qed.

Lemma toEpochSeconds_valid m ttl :
  0 < ttl → ∃ e, toEpochSeconds m ttl = inr e.
Proof.
  unfold toEpochSeconds. intros Httl.
  destruct (Z.leb_spec ttl 0); [lia | eauto].
Qed.

(** ** The queue *)

Lemma remove_el_perm el (h : list ptr) : el ∈ h → h ≡ₚ el :: remove_el el h.
Proof.
  induction h as [|x t IH]; simpl.
  - by intros ?%not_elem_of_nil.
  - intros Hin. destruct (decide (x = el)) as [->|Hne]; [done|].
    apply elem_of_cons in Hin as [?|Hin]; [congruence|].
    rewrite (IH Hin) at 1. apply Permutation_swap.
Qed.

Lemma remove_el_absent el (h : list ptr) : el ∉ h → remove_el el h = h.
Proof.
  induction h as [|x t IH]; simpl; [done|].
  intros Hnin. apply not_elem_of_cons in Hnin as [? ?].
  destruct (decide (x = el)); [congruence|]. by rewrite IH.
Qed.

Lemma remove_el_subset el x (h : list ptr) : x ∈ remove_el el h → x ∈ h.
Proof.
  induction h as [|y t IH]; simpl; [done|].
  destruct (decide (y = el)).
  - intros. by apply list_elem_of_further.
  - intros [->|?]%elem_of_cons; [apply list_elem_of_here|].
    apply list_elem_of_further. by apply IH.
Qed.

Lemma remove_el_other el x (h : list ptr) : x ≠ el → x ∈ h → x ∈ remove_el el h.
Proof.
  intros Hne. induction h as [|y t IH]; simpl; [done|].
  intros [<-|Hin]%elem_of_cons.
  - destruct (decide (x = el)); [done|]. apply list_elem_of_here.
  - destruct (decide (y = el)); [done|]. apply list_elem_of_further. by apply IH.
Qed.

Lemma remove_el_NoDup el (h : list ptr) : NoDup h → NoDup (remove_el el h).
Proof.
  induction 1 as [|x t Hx Ht IH]; simpl; [constructor|].
  destruct (decide (x = el)); [done|].
  constructor; [|done]. intros Hin. by apply Hx, (remove_el_subset el).
Qed.

Lemma remove_el_gone el (h : list ptr) : NoDup h → el ∉ remove_el el h.
Proof.
  induction 1 as [|x t Hx Ht IH]; simpl; [apply not_elem_of_nil|].
  destruct (decide (x = el)) as [->|Hne]; [done|].
  apply not_elem_of_cons. by split.
Qed.

Lemma fold_min_el_spec mem (t : list ptr) x :
  let r := fold_left (min_el mem) t x in
  r ∈ x :: t ∧ ∀ y, y ∈ x :: t → Priority (mem !!! r) ≤ Priority (mem !!! y).
Proof.
  revert x. induction t as [|a t IH]; intros x; simpl.
  - split; [apply list_elem_of_here|].
    intros y ->%list_elem_of_singleton. lia.
  - destruct (IH (min_el mem x a)) as [Hin Hmin]. split.
    + apply elem_of_cons in Hin as [Heq|Hin].
      * rewrite Heq. unfold min_el. case_match.
        -- apply list_elem_of_further, list_elem_of_here.
        -- apply list_elem_of_here.
      * by do 2 apply list_elem_of_further.
    + intros y Hy.
      assert (Priority (mem !!! min_el mem x a) ≤ Priority (mem !!! x) ∧
              Priority (mem !!! min_el mem x a) ≤ Priority (mem !!! a)) as [Hx Ha].
      { unfold min_el. destruct (Z.ltb_spec (Priority (mem !!! a)) (Priority (mem !!! x))); lia. }
      pose proof (Hmin (min_el mem x a) (list_elem_of_here _ _)) as H0.
      apply elem_of_cons in Hy as [->|Hy]; [lia|].
      apply elem_of_cons in Hy as [->|Hy]; [lia|].
      apply Hmin. by apply list_elem_of_further.
Qed.

Lemma PeekEl_elem mem (h : list ptr) el : PeekEl mem h = Some el → el ∈ h.
Proof.
  destruct h as [|x t]; simpl; [done|]. intros [= <-].
  apply (fold_min_el_spec mem t x).
Qed.

Lemma PeekEl_min mem (h : list ptr) el y :
  PeekEl mem h = Some el → y ∈ h → Priority (mem !!! el) ≤ Priority (mem !!! y).
Proof.
  destruct h as [|x t]; simpl; [done|]. intros [= <-].
  apply (fold_min_el_spec mem t x).
Qed.

Lemma PeekEl_nonempty mem (h : list ptr) x : x ∈ h → is_Some (PeekEl mem h).
Proof. destruct h; [by intros ?%not_elem_of_nil | by eexists]. Qed.

Lemma PopEl_peek mem (h : list ptr) el :
  PeekEl mem h = Some el → PopEl mem h = Some (el, remove_el el h).
Proof. unfold PopEl. by intros ->. Qed.

(** ** Reading a well-formed container *)

Lemma inv_read m k mapEl :
  inv m → elements m !! k = Some mapEl →
  key (mapElementAt m mapEl) = k ∧
  heapEl (mapElementAt m mapEl) ∈ expiryTimes m ∧
  Value (ElementAt m (heapEl (mapElementAt m mapEl))) = mapEl ∧
  mapEl ∈ dom (mapElements m) ∧
  heapEl (mapElementAt m mapEl) ∈ dom (heapElements m).
Proof.
  intros Hinv Hk.
  destruct (inv_map m Hinv k mapEl Hk) as (el & hel & Hel & Hkey & Hin & Hhel & Hval).
  unfold mapElementAt, ElementAt.
  rewrite (lookup_total_correct _ _ _ Hel), (lookup_total_correct _ _ _ Hhel).
  split_and!; try done; apply elem_of_dom; eauto.
Qed.

Lemma inv_read_heap m h :
  inv m → h ∈ expiryTimes m →
  elements m !! key (mapElementAt m (Value (ElementAt m h))) = Some (Value (ElementAt m h)) ∧
  heapEl (mapElementAt m (Value (ElementAt m h))) = h.
Proof.
  intros Hinv Hin.
  destruct (inv_heap m Hinv h Hin) as (hel & el & Hhel & Hel & Hback & Hk).
  unfold mapElementAt, ElementAt.
  by rewrite (lookup_total_correct _ _ _ Hhel), (lookup_total_correct _ _ _ Hel).
Qed.

(** Two keys never share a map element or a handle. *)
Lemma inv_handle_inj m k1 k2 p1 p2 :
  inv m → elements m !! k1 = Some p1 → elements m !! k2 = Some p2 →
  heapEl (mapElementAt m p1) = heapEl (mapElementAt m p2) → k1 = k2.
Proof.
  intros Hinv H1 H2 Heq.
  destruct (inv_read m k1 p1 Hinv H1) as (Hk1 & _ & Hv1 & _).
  destruct (inv_read m k2 p2 Hinv H2) as (Hk2 & _ & Hv2 & _).
  rewrite Heq, Hv2 in Hv1. subst p2. congruence.
Qed.

Lemma inv_nonempty m : inv m → len m ≠ 0 → ∃ h, h ∈ expiryTimes m.
Proof.
  intros Hinv Hlen. unfold len in Hlen.
  destruct (map_choose (elements m)) as (k & p & Hk).
  { intros Hempty. rewrite Hempty, map_size_empty in Hlen. lia. }
  exists (heapEl (mapElementAt m p)). by apply (inv_read m k p).
Qed.

(** ** Removing an entry: its key from the map, its handle from the queue *)

Section removal.
Context (m m' : State) (k : string) (mapEl : ptr).
Hypothesis Hinv : inv m.
Hypothesis Hk : elements m !! k = Some mapEl.
Hypothesis Helements : elements m' = delete k (elements m).
Hypothesis HexpiryTimes :
  expiryTimes m' = remove_el (heapEl (mapElementAt m mapEl)) (expiryTimes m).
Hypothesis HmapElements : mapElements m' = mapElements m.
Hypothesis HheapElements : heapElements m' = heapElements m.

Lemma removal_inv : inv m'.
Proof using All.
  pose proof (inv_read m k mapEl Hinv Hk) as (Hkey & Hin & Hval & _).
  split.
  - rewrite HexpiryTimes. apply remove_el_NoDup, Hinv.
  - rewrite HexpiryTimes, Helements, map_size_delete_Some by eauto.
    rewrite <- (inv_count m Hinv).
    by rewrite (remove_el_perm _ _ Hin) at 2.
  - intros k' p' Hk'. rewrite Helements in Hk'.
    apply lookup_delete_Some in Hk' as [Hne Hk'].
    destruct (inv_map m Hinv k' p' Hk') as (el & hel & Hel & Hkey' & Hin' & Hhel & Hval').
    exists el, hel. rewrite HmapElements, HheapElements, HexpiryTimes.
    split_and!; try done. apply remove_el_other; [|done].
    intros Heq. apply Hne. symmetry.
    apply (inv_handle_inj m k' k p' mapEl); try done.
    unfold mapElementAt at 1. by rewrite (lookup_total_correct _ _ _ Hel).
  - intros h Hh. rewrite HexpiryTimes in Hh.
    assert (h ≠ heapEl (mapElementAt m mapEl)) as Hne.
    { intros ->. revert Hh. apply remove_el_gone, Hinv. }
    apply remove_el_subset in Hh.
    destruct (inv_heap m Hinv h Hh) as (hel & el & Hhel & Hel & Hback & Hk').
    exists hel, el. rewrite HmapElements, HheapElements, Helements.
    split_and!; try done. rewrite lookup_delete_ne; [done|].
    intros Heq. rewrite <- Heq, Hk in Hk'. injection Hk' as Hp.
    apply Hne. rewrite Hp. unfold mapElementAt.
    by rewrite (lookup_total_correct _ _ _ Hel).
Qed.

Lemma removal_len : len m' = len m - 1.
Proof using Hk Helements.
  unfold len. rewrite Helements.
  rewrite map_size_delete_Some by eauto.
  assert (size (elements m) ≠ 0%nat).
  { apply map_size_non_empty_iff. intros He. by rewrite He in Hk. }
  lia.
Qed.

Lemma removal_entry k' :
  entry m' k' = if decide (k' = k) then None else entry m k'.
Proof using Helements HmapElements HheapElements.
  unfold entry, mapElementAt, ElementAt.
  rewrite Helements, HmapElements, HheapElements.
  destruct (decide (k' = k)) as [->|Hne].
  - by rewrite lookup_delete_eq.
  - by rewrite lookup_delete_ne.
Qed.
End removal.

(** ** Entering a new key *)

Section insertion.
Context (m : State) (k : string) (v : val) (e : Z).
Hypothesis Hinv : inv m.
Hypothesis Hk : elements m !! k = None.

Let h := fresh (dom (heapElements m)).
Let p := fresh (dom (mapElements m)).

Lemma fresh_handle : heapElements m !! h = None.
Proof using Type. apply not_elem_of_dom, is_fresh. Qed.

Lemma fresh_mapElement : mapElements m !! p = None.
Proof using Type. apply not_elem_of_dom, is_fresh. Qed.

Lemma insertion_inv : inv (insert_new k v e m).
Proof using All.
  pose proof fresh_handle as Hh. pose proof fresh_mapElement as Hp.
  split; unfold insert_new; simpl; fold h p.
  - unfold PushEl. apply NoDup_app. split_and!.
    + apply Hinv.
    + intros x Hx ->%list_elem_of_singleton.
      destruct (inv_heap m Hinv h Hx) as (hel & _ & Hhel & _). congruence.
    + apply NoDup_singleton.
  - unfold PushEl. rewrite length_app, map_size_insert_None by done.
    rewrite (inv_count m Hinv). simpl. lia.
  - intros k' p' Hk'. apply lookup_insert_Some in Hk' as [[<- <-]|[Hne Hk']].
    + exists (mkMapElement k v h), (mkElement e p). simpl.
      rewrite !lookup_insert_eq. split_and!; try done.
      unfold PushEl. apply elem_of_app. right. apply list_elem_of_here.
    + destruct (inv_map m Hinv k' p' Hk') as (el & hel & Hel & Hkey & Hin & Hhel & Hval).
      exists el, hel.
      rewrite lookup_insert_ne by congruence.
      rewrite lookup_insert_ne by congruence.
      split_and!; try done. unfold PushEl. apply elem_of_app. by left.
  - intros x Hx. unfold PushEl in Hx.
    apply elem_of_app in Hx as [Hx| ->%list_elem_of_singleton].
    + destruct (inv_heap m Hinv x Hx) as (hel & el & Hhel & Hel & Hback & Hk').
      exists hel, el.
      rewrite lookup_insert_ne by congruence.
      rewrite lookup_insert_ne by congruence.
      rewrite lookup_insert_ne by congruence. done.
    + exists (mkElement e p), (mkMapElement k v h). simpl.
      by rewrite !lookup_insert_eq.
Qed.

Lemma insertion_len : len (insert_new k v e m) = len m + 1.
Proof using Hk.
  unfold len, insert_new; simpl. rewrite map_size_insert_None by done. lia.
Qed.

Lemma insertion_entry k' :
  entry (insert_new k v e m) k' = if decide (k' = k) then Some (v, e) else entry m k'.
Proof using All.
  pose proof fresh_handle as Hh. pose proof fresh_mapElement as Hp.
  unfold entry, insert_new, mapElementAt, ElementAt; simpl; fold h p.
  destruct (decide (k' = k)) as [->|Hne].
  - by rewrite lookup_insert_eq, !lookup_total_insert_eq.
  - rewrite lookup_insert_ne by done.
    destruct (elements m !! k') as [p'|] eqn:Hk'; [|done].
    destruct (inv_map m Hinv k' p' Hk') as (el & hel & Hel & Hkey & Hin & Hhel & Hval).
    rewrite lookup_total_insert_ne by congruence.
    rewrite (lookup_total_correct _ _ _ Hel).
    rewrite lookup_total_insert_ne by congruence. done.
Qed.
End insertion.

(** ** Overwriting the value and the priority of a stored key *)

Section overwriting.
Context (m : State) (k : string) (mapEl : ptr) (v : val) (e : Z).
Hypothesis Hinv : inv m.
Hypothesis Hk : elements m !! k = Some mapEl.

Lemma overwrite_elements : elements (overwrite mapEl v e m) = elements m.
Proof using Type. reflexivity. Qed.

Lemma overwrite_expiryTimes : expiryTimes (overwrite mapEl v e m) = expiryTimes m.
Proof using Type. reflexivity. Qed.

Lemma overwrite_mapElements :
  mapElements (overwrite mapEl v e m) =
  <[mapEl := mkMapElement (key (mapElementAt m mapEl)) v (heapEl (mapElementAt m mapEl))]>
    (mapElements m).
Proof using Type. reflexivity. Qed.

Lemma overwrite_heapElements :
  heapElements (overwrite mapEl v e m) =
  <[heapEl (mapElementAt m mapEl) :=
      mkElement e (Value (ElementAt m (heapEl (mapElementAt m mapEl))))]>
    (heapElements m).
Proof using Type.
  unfold overwrite, store_value, UpdateEl, mapElementAt, ElementAt; simpl.
  by rewrite lookup_total_insert_eq.
Qed.

Lemma overwrite_inv : inv (overwrite mapEl v e m).
Proof using All.
  pose proof (inv_read m k mapEl Hinv Hk) as (Hkey & Hin & Hval & _).
  split.
  - apply Hinv.
  - apply Hinv.
  - intros k' p' Hk'. rewrite overwrite_elements in Hk'.
    rewrite overwrite_mapElements, overwrite_heapElements, overwrite_expiryTimes.
    destruct (decide (k' = k)) as [->|Hne].
    + rewrite Hk in Hk'. injection Hk' as <-.
      exists (mkMapElement (key (mapElementAt m mapEl)) v (heapEl (mapElementAt m mapEl))),
             (mkElement e (Value (ElementAt m (heapEl (mapElementAt m mapEl))))).
      simpl. by rewrite !lookup_insert_eq.
    + destruct (inv_map m Hinv k' p' Hk') as (el & hel & Hel & Hkey' & Hin' & Hhel & Hval').
      assert (heapEl el ≠ heapEl (mapElementAt m mapEl)) as Hh.
      { intros Heq. apply Hne. apply (inv_handle_inj m k' k p' mapEl); try done.
        unfold mapElementAt at 1. by rewrite (lookup_total_correct _ _ _ Hel). }
      assert (p' ≠ mapEl) as Hp.
      { intros ->. apply Hh. unfold mapElementAt.
        by rewrite (lookup_total_correct _ _ _ Hel). }
      exists el, hel. by rewrite !lookup_insert_ne.
  - intros x Hx.
    rewrite overwrite_elements, overwrite_mapElements, overwrite_heapElements.
    rewrite overwrite_expiryTimes in Hx.
    destruct (inv_heap m Hinv x Hx) as (hel & el & Hhel & Hel & Hback & Hk').
    destruct (decide (x = heapEl (mapElementAt m mapEl))) as [->|Hne].
    + exists (mkElement e (Value (ElementAt m (heapEl (mapElementAt m mapEl))))),
             (mkMapElement (key (mapElementAt m mapEl)) v (heapEl (mapElementAt m mapEl))).
      simpl. rewrite Hval, !lookup_insert_eq, Hkey. done.
    + assert (Value hel ≠ mapEl) as Hp.
      { intros Heq. apply Hne. rewrite <- Hback, <- Heq. unfold mapElementAt.
        by rewrite (lookup_total_correct _ _ _ Hel). }
      exists hel, el. by rewrite !lookup_insert_ne.
Qed.

Lemma overwrite_len : len (overwrite mapEl v e m) = len m.
Proof using Type. reflexivity. Qed.

Lemma overwrite_entry k' :
  entry (overwrite mapEl v e m) k' = if decide (k' = k) then Some (v, e) else entry m k'.
Proof using All.
  unfold entry. rewrite overwrite_elements.
  unfold mapElementAt, ElementAt.
  rewrite overwrite_mapElements, overwrite_heapElements.
  destruct (decide (k' = k)) as [->|Hne].
  - rewrite Hk, lookup_total_insert_eq. simpl. by rewrite lookup_total_insert_eq.
  - destruct (elements m !! k') as [p'|] eqn:Hk'; [|done].
    destruct (inv_map m Hinv k' p' Hk') as (el & hel & Hel & Hkey' & Hin' & Hhel & Hval').
    assert (heapEl el ≠ heapEl (mapElementAt m mapEl)) as Hh.
    { intros Heq. apply Hne. apply (inv_handle_inj m k' k p' mapEl); try done.
      unfold mapElementAt at 1. by rewrite (lookup_total_correct _ _ _ Hel). }
    assert (p' ≠ mapEl) as Hp.
    { intros ->. apply Hh. unfold mapElementAt.
      by rewrite (lookup_total_correct _ _ _ Hel). }
    rewrite lookup_total_insert_ne by done.
    rewrite (lookup_total_correct _ _ _ Hel).
    by rewrite lookup_total_insert_ne.
Qed.
End overwriting.

(** ** Eviction *)

Lemma entry_handle m k v p :
  inv m → entry m k = Some (v, p) →
  ∃ h, h ∈ expiryTimes m ∧ Priority (ElementAt m h) = p ∧ victim m h = k.
Proof.
  unfold entry. intros Hinv He.
  destruct (elements m !! k) as [mapEl|] eqn:Hk; [|done].
  injection He as _ Hp.
  destruct (inv_read m k mapEl Hinv Hk) as (Hkey & Hin & Hval & _).
  exists (heapEl (mapElementAt m mapEl)). unfold victim. by rewrite Hval.
Qed.

Lemma handle_entry m h :
  inv m → h ∈ expiryTimes m →
  ∃ v, entry m (victim m h) = Some (v, Priority (ElementAt m h)).
Proof.
  intros Hinv Hin. destruct (inv_read_heap m h Hinv Hin) as [Hk Hback].
  unfold entry, victim. rewrite Hk, Hback. eauto.
Qed.

Lemma entry_len m k x : entry m k = Some x → len m ≠ 0.
Proof.
  unfold entry, len. destruct (elements m !! k) eqn:Hk; [|done]. intros _.
  assert (size (elements m) ≠ 0%nat); [|lia].
  apply map_size_non_empty_iff. intros He. by rewrite He in Hk.
Qed.

Lemma evicts_refl m : inv m → evicts m m 0.
Proof.
  intros Hinv. split; try done; [lia|].
  intros k v p k' v' p' H1 H2. congruence.
Qed.

Lemma evicts_trans m m1 m2 r1 r2 :
  evicts m m1 r1 → evicts m1 m2 r2 → evicts m m2 (r1 + r2).
Proof.
  intros E1 E2. split.
  - apply E2.
  - rewrite (ev_len _ _ _ E2), (ev_len _ _ _ E1). lia.
  - pose proof (ev_count _ _ _ E1). pose proof (ev_count _ _ _ E2). lia.
  - intros k x Hx. by apply (ev_kept _ _ _ E1), (ev_kept _ _ _ E2).
  - intros k v p k' v' p' Hk Hgone Hk'.
    destruct (entry m1 k) as [y|] eqn:Hmid.
    + pose proof (ev_kept _ _ _ E1 k y Hmid) as Hy.
      rewrite Hk in Hy. injection Hy as <-.
      by apply (ev_order _ _ _ E2 k v p k' v' p').
    + apply (ev_order _ _ _ E1 k v p k' v' p'); try done.
      by apply (ev_kept _ _ _ E2).
  - by rewrite (ev_fired _ _ _ E2), (ev_fired _ _ _ E1).
  - by rewrite (ev_capacity _ _ _ E2), (ev_capacity _ _ _ E1).
  - by rewrite (ev_clock _ _ _ E2), (ev_clock _ _ _ E1).
  - by rewrite (ev_onExpire _ _ _ E2), (ev_onExpire _ _ _ E1).
Qed.

(** Popping the minimum evicts one entry, the one the handle stands
    for. *)
Lemma drop_popped_evicts m el :
  inv m → PeekEl (heapElements m) (expiryTimes m) = Some el →
  let m' := drop_popped el (remove_el el (expiryTimes m)) m in
  evicts m m' 1 ∧
  ∀ k, entry m' k = if decide (k = victim m el) then None else entry m k.
Proof.
  intros Hinv Hpeek m'.
  pose proof (PeekEl_elem _ _ _ Hpeek) as Hin.
  destruct (inv_read_heap m el Hinv Hin) as [Hk Hback].
  assert (expiryTimes m' =
          remove_el (heapEl (mapElementAt m (Value (ElementAt m el)))) (expiryTimes m)) as Hh.
  { by rewrite Hback. }
  assert (∀ k, entry m' k = if decide (k = victim m el) then None else entry m k) as Hentry.
  { intros k. by apply (removal_entry m m' (victim m el)). }
  split; [|done]. split; try done.
  - by apply (removal_inv m m' (victim m el) (Value (ElementAt m el))).
  - by apply (removal_len m m' (victim m el) (Value (ElementAt m el))).
  - intros k x. rewrite Hentry. by case_decide.
  - intros k v p k' v' p'. rewrite !Hentry. intros Hkv Hgone Hk'.
    destruct (decide (k = victim m el)) as [->|]; [|congruence].
    destruct (decide (k' = victim m el)); [done|].
    destruct (handle_entry m el Hinv Hin) as [v0 Hv0].
    rewrite Hkv in Hv0. injection Hv0 as _ ->.
    destruct (entry_handle m k' v' p' Hinv Hk') as (h & Hh' & <- & _).
    unfold ElementAt. by apply (PeekEl_min _ (expiryTimes m)).
Qed.

Lemma removeExpired_loop_spec now iterations :
  ∀ removed m, inv m →
  ∃ r m1,
    removeExpired_loop now iterations removed m = Some (removed + r, m1) ∧
    evicts m m1 r ∧ r ≤ Z.of_nat iterations ∧
    (∀ k v p, entry m k = Some (v, p) → entry m1 k = None → p ≤ now) ∧
    (r < Z.of_nat iterations → ∀ k v p, entry m1 k = Some (v, p) → now < p).
Proof.
  induction iterations as [|i IH]; intros removed m Hinv; simpl.
  - exists 0, m. rewrite Z.add_0_r.
    split_and!; first [by apply evicts_refl | done | lia | congruence].
  - destruct (Z.eqb_spec (len m) 0) as [Hlen|Hlen].
    { exists 0, m. rewrite Z.add_0_r.
      split_and!; first [by apply evicts_refl | done | lia | congruence | idtac].
      intros _ k v p Hk. by apply entry_len in Hk. }
    destruct (inv_nonempty m Hinv Hlen) as [h0 Hh0].
    destruct (PeekEl_nonempty (heapElements m) _ _ Hh0) as [el Hpeek].
    rewrite Hpeek.
    destruct (Z.gtb_spec (Priority (ElementAt m el)) now) as [Hlive|Hdead].
    { exists 0, m. rewrite Z.add_0_r.
      split_and!; first [by apply evicts_refl | done | lia | congruence | idtac].
      intros _ k v p Hk.
        destruct (entry_handle m k v p Hinv Hk) as (h & Hh & <- & _).
        pose proof (PeekEl_min _ _ _ h Hpeek Hh) as Hmin.
        unfold ElementAt in *. lia. }
    rewrite (PopEl_peek _ _ _ Hpeek).
    destruct (drop_popped_evicts m el Hinv Hpeek) as [E1 Hentry].
    destruct (IH (removed + 1) _ (ev_inv _ _ _ E1)) as (r & m1 & Hrun & E2 & Hr & Hexp & Hrest).
    exists (1 + r), m1. split_and!.
    + rewrite Hrun. do 2 f_equal. lia.
    + by apply (evicts_trans _ _ _ _ _ E1).
    + lia.
    + intros k v p Hk Hgone.
      destruct (decide (k = victim m el)) as [->|Hne].
      * destruct (handle_entry m el Hinv (PeekEl_elem _ _ _ Hpeek)) as [v0 Hv0].
        rewrite Hk in Hv0. injection Hv0 as _ ->. lia.
      * apply (Hexp k v p); [|done]. rewrite Hentry. by case_decide.
    + intros Hlt. apply Hrest. lia.
Qed.

Lemma removeLastUsed_loop_spec iterations :
  ∀ m, inv m →
  ∃ m2, removeLastUsed_loop iterations m = Some m2 ∧
        evicts m m2 (Z.min (Z.of_nat iterations) (len m)).
Proof.
  induction iterations as [|i IH]; intros m Hinv.
  - exists m. split; [done|].
    assert (Z.min (Z.of_nat 0) (len m) = 0) as -> by (unfold len; lia).
    by apply evicts_refl.
  - cbn [removeLastUsed_loop].
    destruct (Z.eqb_spec (len m) 0) as [Hlen|Hlen].
    { exists m. split; [done|].
      assert (Z.min (Z.of_nat (S i)) (len m) = 0) as -> by lia.
      by apply evicts_refl. }
    destruct (inv_nonempty m Hinv Hlen) as [h0 Hh0].
    destruct (PeekEl_nonempty (heapElements m) _ _ Hh0) as [el Hpeek].
    rewrite (PopEl_peek _ _ _ Hpeek).
    destruct (drop_popped_evicts m el Hinv Hpeek) as [E1 _].
    destruct (IH _ (ev_inv _ _ _ E1)) as (m2 & Hrun & E2).
    exists m2. split; [done|].
    pose proof (ev_len _ _ _ E1) as Hl. rewrite Hl in E2.
    assert (Z.min (Z.of_nat (S i)) (len m) = 1 + Z.min (Z.of_nat i) (len m - 1)) as ->
      by (unfold len in *; lia).
    by apply (evicts_trans _ _ _ _ _ E1).
Qed.

Lemma removeExpired_spec n m :
  inv m →
  ∃ r m1,
    removeExpired n m = Some (r, m1) ∧ evicts m m1 r ∧ r ≤ Z.max 0 n ∧
    (∀ k v p, entry m k = Some (v, p) → entry m1 k = None → p ≤ now m) ∧
    (r < n → ∀ k v p, entry m1 k = Some (v, p) → now m < p).
Proof.
  intros Hinv. unfold removeExpired.
  destruct (removeExpired_loop_spec (now m) (Z.to_nat n) 0 m Hinv)
    as (r & m1 & Hrun & E & Hr & Hexp & Hrest).
  exists r, m1. split_and!; try done; [lia|].
  intros Hlt. apply Hrest. lia.
Qed.

Lemma freeSpace_spec n m :
  inv m →
  ∃ r m1 m2,
    removeExpired n m = Some (r, m1) ∧ freeSpace n m = Some m2 ∧
    evicts m m1 r ∧ r ≤ Z.max 0 n ∧
    (∀ k v p, entry m k = Some (v, p) → entry m1 k = None → p ≤ now m) ∧
    (r < n → ∀ k v p, entry m1 k = Some (v, p) → now m < p) ∧
    evicts m1 m2 (Z.min (Z.max 0 (n - r)) (len m1)).
Proof.
  intros Hinv.
  destruct (removeExpired_spec n m Hinv) as (r & m1 & Hrun & E & Hr & Hexp & Hrest).
  pose proof (ev_count _ _ _ E) as Hr0.
  unfold freeSpace. rewrite Hrun.
  destruct (Z.geb_spec r n) as [Hge|Hlt].
  - exists r, m1, m1. split_and!; try done.
    assert (Z.min (Z.max 0 (n - r)) (len m1) = 0) as -> by (unfold len; lia).
    apply evicts_refl, E.
  - destruct (removeLastUsed_loop_spec (Z.to_nat (n - r)) m1 (ev_inv _ _ _ E))
      as (m2 & Hrun2 & E2).
    exists r, m1, m2. split_and!; try done.
    by rewrite Z2Nat.id, <- (Z.max_r 0 (n - r)) in E2 by lia.
Qed.

(** Both phases together. *)
Lemma freeSpace_evicts n m :
  inv m → ∃ m2, freeSpace n m = Some m2 ∧ evicts m m2 (Z.min (Z.max 0 n) (len m)).
Proof.
  intros Hinv.
  destruct (freeSpace_spec n m Hinv) as (r & m1 & m2 & _ & Hrun & E1 & Hr & _ & _ & E2).
  exists m2. split; [done|].
  pose proof (ev_count _ _ _ E1) as Hr0.
  pose proof (ev_len _ _ _ E1) as Hl.
  assert (0 ≤ len m1) by (unfold len; lia).
  assert (Z.min (Z.max 0 n) (len m) = r + Z.min (Z.max 0 (n - r)) (len m1)) as -> by lia.
  by apply (evicts_trans _ _ _ _ _ E1).
Qed.

(** ** The public operations on a well-formed container *)

Lemma entry_None m k : entry m k = None ↔ elements m !! k = None.
Proof. unfold entry. by destruct (elements m !! k). Qed.

Lemma entry_Some m k v p :
  entry m k = Some (v, p) ↔
  ∃ mapEl, elements m !! k = Some mapEl ∧ value (mapElementAt m mapEl) = v ∧
           Priority (ElementAt m (heapEl (mapElementAt m mapEl))) = p.
Proof.
  unfold entry. destruct (elements m !! k) as [mapEl|].
  - split.
    + intros [= <- <-]. by exists mapEl.
    + intros (? & [= <-] & <- & <-). done.
  - split; [done|]. by intros (? & ? & _).
Qed.

Lemma len_nonneg m : 0 ≤ len m.
Proof. unfold len. lia. Qed.

(** [Set] on a key that is not stored. *)
Lemma Set_new m k v ttl e :
  inv m → elements m !! k = None → toEpochSeconds m ttl = inr e →
  ∃ m1,
    (if len m >=? capacity m then freeSpace 1 m else Some m) = Some m1 ∧
    Set_ k v ttl m = Some (None, insert_new k v e m1) ∧
    evicts m m1 (if len m >=? capacity m then Z.min 1 (len m) else 0) ∧
    elements m1 !! k = None.
Proof.
  intros Hinv Hk He. unfold Set_. rewrite He, Hk.
  destruct (len m >=? capacity m).
  - destruct (freeSpace_evicts 1 m Hinv) as (m1 & Hrun & E).
    exists m1. rewrite Hrun. split_and!; try done.
    apply entry_None. destruct (entry m1 k) as [x|] eqn:Hx; [|done].
    apply (ev_kept _ _ _ E) in Hx. apply entry_None in Hk. congruence.
  - exists m. split_and!; try done. by apply evicts_refl.
Qed.

(** [Set] on a stored key. *)
Lemma Set_existing m k mapEl v ttl e :
  elements m !! k = Some mapEl → toEpochSeconds m ttl = inr e →
  Set_ k v ttl m = Some (None, overwrite mapEl v e m).
Proof. intros Hk He. unfold Set_. by rewrite He, Hk. Qed.

Lemma Set_invalid m k v ttl :
  ttl ≤ 0 → Set_ k v ttl m = Some (Some (InvalidTTL ttl), m).
Proof. intros Httl. unfold Set_. by rewrite toEpochSeconds_invalid. Qed.

Lemma Get_absent m k : elements m !! k = None → Get k m = ((VNil, false), m).
Proof. intros Hk. unfold Get, get. by rewrite Hk. Qed.

Lemma Get_live m k v p :
  entry m k = Some (v, p) → now m < p → Get k m = ((v, true), m).
Proof.
  intros (mapEl & Hk & <- & <-)%entry_Some Hp.
  unfold Get, get, shouldExpire. rewrite Hk.
  destruct (Z.leb_spec (Priority (ElementAt m (heapEl (mapElementAt m mapEl)))) (now m));
    [lia | done].
Qed.

(** [Get] on a stored key whose time has come: the callback, when there
    is one, is invoked with the key and the value; the entry goes. *)
Lemma Get_expired m k v p :
  inv m → entry m k = Some (v, p) → p ≤ now m →
  ∃ m',
    Get k m = ((VNil, false), m') ∧ inv m' ∧ len m' = len m - 1 ∧
    (∀ k', entry m' k' = if decide (k' = k) then None else entry m k') ∧
    fired m' = (if onExpire m then fired m ++ [(k, v)] else fired m) ∧
    capacity m' = capacity m ∧ TimeProvider m' = TimeProvider m ∧
    onExpire m' = onExpire m.
Proof.
  intros Hinv (mapEl & Hk & Hv & Hp)%entry_Some Hle.
  destruct (inv_read m k mapEl Hinv Hk) as (Hkey & _).
  unfold Get, get, shouldExpire. rewrite Hk, Hp.
  destruct (Z.leb_spec p (now m)); [|lia].
  unfold expireElement. rewrite Hkey, Hk, Hv. simpl.
  eexists. split; [reflexivity|].
  split_and!.
  - apply (removal_inv m _ k mapEl); try done; by destruct (onExpire m).
  - apply (removal_len m _ k mapEl); try done; by destruct (onExpire m).
  - intros k'. apply (removal_entry m _ k); by destruct (onExpire m).
  - by destruct (onExpire m).
  - by destruct (onExpire m).
  - by destruct (onExpire m).
  - by destruct (onExpire m) eqn:?.
Qed.

Lemma increment_int m mapEl n d e :
  value (mapElementAt m mapEl) = VInt n →
  increment mapEl d e m = ((add_int n d, None), overwrite mapEl (VInt (add_int n d)) e m).
Proof. unfold increment. destruct (mapElementAt m mapEl); simpl. by intros ->. Qed.

Lemma increment_mismatch m mapEl d e :
  (∀ n, value (mapElementAt m mapEl) ≠ VInt n) →
  increment mapEl d e m = ((0, Some (TypeMismatch (value (mapElementAt m mapEl)))), m).
Proof.
  unfold increment. destruct (mapElementAt m mapEl) as [? [] ?]; simpl; try done.
  intros H. by destruct (H n).
Qed.

Lemma Increment_invalid m k d ttl :
  ttl ≤ 0 → Increment k d ttl m = Some ((0, Some (InvalidTTL ttl)), m).
Proof. intros Httl. unfold Increment. by rewrite toEpochSeconds_invalid. Qed.

(** [Increment] on a key that is not stored or has expired goes through
    [Set]. *)
Lemma Increment_as_Set m k d ttl :
  0 < ttl →
  (entry m k = None ∨ ∃ v p, entry m k = Some (v, p) ∧ p ≤ now m) →
  Increment k d ttl m =
  match Set_ k (VInt d) ttl m with
  | None => None
  | Some (_, m1) => Some ((d, None), m1)
  end.
Proof.
  intros Httl Hcase. unfold Increment, get.
  destruct (toEpochSeconds_valid m ttl Httl) as [e ->].
  destruct Hcase as [Hk|(v & p & Hk & Hp)].
  - apply entry_None in Hk. by rewrite Hk.
  - apply entry_Some in Hk as (mapEl & Hk & _ & <-). rewrite Hk.
    unfold shouldExpire.
    by destruct (Z.leb_spec (Priority (ElementAt m (heapEl (mapElementAt m mapEl)))) (now m));
      [|lia].
Qed.

Lemma Increment_live m k v p d ttl e :
  entry m k = Some (v, p) → now m < p → toEpochSeconds m ttl = inr e →
  ∃ mapEl, elements m !! k = Some mapEl ∧ value (mapElementAt m mapEl) = v ∧
           Increment k d ttl m = Some (increment mapEl d e m).
Proof.
  intros (mapEl & Hk & Hv & Hp)%entry_Some Hlive He.
  exists mapEl. split_and!; try done.
  unfold Increment, get, shouldExpire. rewrite He, Hk, Hp.
  by destruct (Z.leb_spec p (now m)); [lia|].
Qed.

(** ** Every operation keeps the container well-formed and bounded *)

Lemma NewMap_ok realtime c opts m0 :
  NewMap realtime c opts = inr m0 →
  0 < c ∧ capacity m0 = c ∧ elements m0 = ∅ ∧ expiryTimes m0 = [] ∧ fired m0 = [].
Proof.
  unfold NewMap. destruct (Z.leb_spec c 0); [done|]. intros [= <-]. done.
Qed.

Lemma NewMap_inv realtime c opts m0 :
  NewMap realtime c opts = inr m0 → inv m0 ∧ bounded m0.
Proof.
  intros (Hc & Hcap & Hel & Hex & _)%NewMap_ok.
  split; [split|].
  - rewrite Hex. constructor.
  - by rewrite Hex, Hel, map_size_empty.
  - intros k p. by rewrite Hel, lookup_empty.
  - intros h. rewrite Hex. by intros ?%not_elem_of_nil.
  - unfold bounded, len. rewrite Hcap, Hel, map_size_empty. lia.
Qed.

Lemma set_clock_inv t m : inv m → inv (set_clock t m).
Proof. intros [? ? ? ?]. by split. Qed.

Lemma Set_step m k v ttl :
  inv m →
  ∃ r m', Set_ k v ttl m = Some (r, m') ∧ inv m' ∧ capacity m' = capacity m ∧
          (bounded m → bounded m').
Proof.
  intros Hinv.
  destruct (Z.le_gt_cases ttl 0) as [Hbad|Hok].
  { exists (Some (InvalidTTL ttl)), m. by rewrite Set_invalid. }
  destruct (toEpochSeconds_valid m ttl Hok) as [e He].
  destruct (elements m !! k) as [mapEl|] eqn:Hk.
  - exists None, (overwrite mapEl v e m).
    rewrite (Set_existing m k mapEl v ttl e Hk He).
    split_and!; try done. by apply (overwrite_inv m k).
  - destruct (Set_new m k v ttl e Hinv Hk He) as (m1 & _ & Hrun & E & Hk1).
    exists None, (insert_new k v e m1). rewrite Hrun.
    split_and!; try done.
    + apply insertion_inv; [apply E | done].
    + apply (ev_capacity _ _ _ E).
    + intros [Hc Hb]. unfold bounded.
      rewrite insertion_len by done.
      change (capacity (insert_new k v e m1)) with (capacity m1).
      rewrite (ev_capacity _ _ _ E), (ev_len _ _ _ E).
      pose proof (len_nonneg m).
      destruct (Z.geb_spec (len m) (capacity m)); lia.
Qed.

Lemma Get_step m k :
  inv m →
  inv (Get k m).2 ∧ capacity (Get k m).2 = capacity m ∧ len (Get k m).2 ≤ len m.
Proof.
  intros Hinv.
  destruct (entry m k) as [[v p]|] eqn:He.
  - destruct (Z.le_gt_cases p (now m)) as [Hdead|Hlive].
    + destruct (Get_expired m k v p Hinv He Hdead) as (m' & -> & ? & ? & _ & _ & ? & _).
      simpl. split_and!; try done. lia.
    + rewrite (Get_live m k v p He) by lia. simpl. split_and!; try done.
  - apply entry_None in He. rewrite (Get_absent m k He). simpl. split_and!; try done.
Qed.

Lemma GetInt_state m k : (GetInt k m).2 = (Get k m).2.
Proof. unfold GetInt. by destruct (Get k m) as [[[] []] ?]. Qed.

Lemma Increment_step m k d ttl :
  inv m →
  ∃ r m', Increment k d ttl m = Some (r, m') ∧ inv m' ∧ capacity m' = capacity m ∧
          (bounded m → bounded m').
Proof.
  intros Hinv.
  destruct (Z.le_gt_cases ttl 0) as [Hbad|Hok].
  { exists (0, Some (InvalidTTL ttl)), m. by rewrite Increment_invalid. }
  destruct (Set_step m k (VInt d) ttl Hinv) as (r & m' & Hset & Hinv' & Hcap & Hb).
  destruct (entry m k) as [[v p]|] eqn:He.
  - destruct (Z.le_gt_cases p (now m)) as [Hdead|Hlive].
    + rewrite Increment_as_Set by eauto. rewrite Hset. eauto 10.
    + destruct (toEpochSeconds_valid m ttl Hok) as [e Hexp].
      destruct (Increment_live m k v p d ttl e He ltac:(lia) Hexp) as (mapEl & Hk & Hv & ->).
      destruct v as [|n|s|b].
      2:{ rewrite (increment_int m mapEl n d e Hv).
          eexists _, _. split; [reflexivity|]. split_and!; try done.
          by apply (overwrite_inv m k). }
      all: rewrite increment_mismatch by (rewrite Hv; done);
        eexists _, _; (split; [reflexivity|]); done.
  - rewrite Increment_as_Set by eauto. rewrite Hset. eauto 10.
Qed.

Lemma step_inv o m :
  inv m →
  ∃ m', step o m = Some m' ∧ inv m' ∧ capacity m' = capacity m ∧
        (bounded m → bounded m').
Proof.
  intros Hinv. destruct o as [k v ttl|k|k d ttl|k| |t]; simpl.
  - destruct (Set_step m k v ttl Hinv) as (r & m' & -> & ?). eauto.
  - destruct (Get_step m k Hinv) as (? & Hc & Hl).
    eexists. split; [done|]. split_and!; try done.
    unfold bounded. rewrite Hc. lia.
  - destruct (Increment_step m k d ttl Hinv) as (r & m' & -> & ?). eauto.
  - rewrite GetInt_state. destruct (Get_step m k Hinv) as (? & Hc & Hl).
    eexists. split; [done|]. split_and!; try done.
    unfold bounded. rewrite Hc. lia.
  - eauto.
  - eexists. split; [done|]. split_and!; try done. by apply set_clock_inv.
Qed.

Lemma run_inv ops :
  ∀ m, inv m →
  ∃ m', run ops m = Some m' ∧ inv m' ∧ capacity m' = capacity m ∧
        (bounded m → bounded m').
Proof.
  induction ops as [|o rest IH]; intros m Hinv; simpl.
  - eauto.
  - destruct (step_inv o m Hinv) as (m1 & -> & Hinv1 & Hc1 & Hb1).
    destruct (IH m1 Hinv1) as (m' & Hrun & Hinv' & Hc' & Hb').
    exists m'. split_and!; try done; [congruence | auto].
Qed.

Lemma new_then_inv realtime c opts ops m :
  new_then realtime c opts ops = Some m → inv m ∧ bounded m ∧ capacity m = c.
Proof.
  unfold new_then. destruct (NewMap realtime c opts) as [|m0] eqn:Hnew; [done|].
  intros Hrun. destruct (NewMap_inv _ _ _ _ Hnew) as [Hinv Hb].
  destruct (NewMap_ok _ _ _ _ Hnew) as (_ & Hc & _).
  destruct (run_inv ops m0 Hinv) as (m' & Hrun' & Hinv' & Hc' & Hb').
  rewrite Hrun in Hrun'. injection Hrun' as <-.
  split_and!; [done | auto | congruence].
Qed.

Lemma sample_new_inv : inv sample_new.
Proof. by apply (NewMap_inv 0 2 [Clock (Some 0); CallOnExpire true]). Qed.

Lemma sample_inv : inv sample.
Proof.
  apply (new_then_inv 0 2 [Clock (Some 0); CallOnExpire true] sample_ops).
  vm_compute. reflexivity.
Qed.

(** ** Further facts used by the theorems *)

(** A successful [Set] leaves the key with the value and the expiry time
    it computed. *)
Lemma Set_entry m k v ttl m1 :
  inv m → Set_ k v ttl m = Some (None, m1) →
  ∃ e, 0 < ttl ∧ toEpochSeconds m ttl = inr e ∧ entry m1 k = Some (v, e) ∧ inv m1.
Proof.
  intros Hinv Hset.
  destruct (Z.le_gt_cases ttl 0) as [Hbad|Hok].
  { by rewrite Set_invalid in Hset. }
  destruct (toEpochSeconds_valid m ttl Hok) as [e He].
  exists e. split; [lia|]. split; [done|].
  destruct (elements m !! k) as [mapEl|] eqn:Hk.
  - rewrite (Set_existing m k mapEl v ttl e Hk He) in Hset. injection Hset as <-.
    split; [|by apply (overwrite_inv m k)].
    rewrite (overwrite_entry m k) by done. by case_decide.
  - destruct (Set_new m k v ttl e Hinv Hk He) as (m' & _ & Hrun & E & Hk').
    rewrite Hrun in Hset. injection Hset as <-.
    split; [|apply insertion_inv; [apply E | done]].
    rewrite insertion_entry by (apply E || done). by case_decide.
Qed.

Lemma Get_dead m k v p :
  entry m k = Some (v, p) → p ≤ now m → (Get k m).1 = (VNil, false).
Proof.
  intros (mapEl & Hk & _ & Hp)%entry_Some Hle.
  unfold Get, get, shouldExpire. rewrite Hk, Hp.
  by destruct (Z.leb_spec p (now m)); [|lia].
Qed.

Lemma size_delete_present (M : gmap string ptr) k :
  is_Some (M !! k) → size M = S (size (delete k M)).
Proof.
  intros HM. rewrite map_size_delete_Some by done.
  assert (size M ≠ 0%nat); [|lia].
  apply map_size_non_empty_iff. intros He. rewrite He, lookup_empty in HM.
  by destruct HM.
Qed.

Lemma three_keys m k1 k2 k3 :
  k1 ≠ k2 → k1 ≠ k3 → k2 ≠ k3 →
  is_Some (elements m !! k1) → is_Some (elements m !! k2) →
  is_Some (elements m !! k3) → 3 ≤ len m.
Proof.
  intros H12 H13 H23 H1 H2 H3. unfold len.
  rewrite (size_delete_present (elements m) k1) by done.
  rewrite (size_delete_present (delete k1 (elements m)) k2)
    by (by rewrite lookup_delete_ne).
  rewrite (size_delete_present (delete k2 (delete k1 (elements m))) k3)
    by (by rewrite !lookup_delete_ne).
  lia.
Qed.

(** Freeing one slot of a container that is not empty evicts the entry
    of the handle at the top of the queue, through the first phase when
    it has expired and through the second when it has not. *)
Lemma freeSpace_one m :
  inv m → len m ≠ 0 →
  ∃ el m1,
    PeekEl (heapElements m) (expiryTimes m) = Some el ∧
    freeSpace 1 m = Some m1 ∧ evicts m m1 1 ∧
    ∀ k, entry m1 k = if decide (k = victim m el) then None else entry m k.
Proof.
  intros Hinv Hlen.
  destruct (inv_nonempty m Hinv Hlen) as [h0 Hh0].
  destruct (PeekEl_nonempty (heapElements m) _ _ Hh0) as [el Hpeek].
  destruct (drop_popped_evicts m el Hinv Hpeek) as [E Hentry].
  exists el, (drop_popped el (remove_el el (expiryTimes m)) m).
  split_and!; try done.
  unfold freeSpace, removeExpired. change (Z.to_nat 1) with 1%nat.
  cbn [removeExpired_loop].
  destruct (Z.eqb_spec (len m) 0); [done|]. rewrite Hpeek.
  destruct (Priority (ElementAt m el) >? now m).
  - change (0 >=? 1) with false. cbn iota.
    unfold removeLastUsed. change (Z.to_nat (1 - 0)) with 1%nat.
    cbn [removeLastUsed_loop].
    destruct (Z.eqb_spec (len m) 0); [done|].
    by rewrite (PopEl_peek _ _ _ Hpeek).
  - by rewrite (PopEl_peek _ _ _ Hpeek).
Qed.

Lemma inv_bijection m : inv m → bijection m.
Proof.
  intros Hinv. split_and!.
  - intros k [mapEl Hk].
    destruct (inv_read m k mapEl Hinv Hk) as (Hkey & Hin & Hval & _).
    exists (heapEl (mapElementAt m mapEl)). split_and!; try done.
    + unfold victim. by rewrite Hval.
    + intros h' Hh' Hv.
      destruct (inv_read_heap m h' Hinv Hh') as [Hk' Hback].
      fold (victim m h') in Hk'. rewrite Hv, Hk in Hk'. injection Hk' as Hp.
      by rewrite Hp.
  - intros h Hh. destruct (inv_read_heap m h Hinv Hh) as [Hk _].
    unfold victim. eauto.
  - apply Hinv.
  - apply Hinv.
Qed.

Lemma inv_priority m : inv m → priority_is_expiry m.
Proof.
  intros Hinv k mapEl h Hk Hh Hv.
  destruct (inv_read_heap m h Hinv Hh) as [Hk' Hback].
  fold (victim m h) in Hk'. rewrite Hv, Hk in Hk'. injection Hk' as Hp.
  rewrite <- Hp in Hback. split; [done|].
  unfold entry. by rewrite Hk, Hback.
Qed.

(** * The properties of the specification *)

(** ** The two scenarios of section 8 *)

(** Capacity 2, all at time 0: ["a"] for 10 seconds, ["b"] for 5,
    then ["c"] for 10.  The third [Set] evicts ["b"], the earliest to
    expire; ["a"] is still found and two entries are stored. *)
Example scenario_eviction :
  (λ m, ((Get "b" m).1, (Get "a" m).1, Len m))
    <$> new_then 0 2 [Clock (Some 0)]
          [OSet "a" (VInt 1) 10; OSet "b" (VInt 2) 5; OSet "c" (VInt 3) 10]
  = Some ((VNil, false), (VInt 1, true), 2).
Proof. vm_compute. reflexivity. Qed.

(** ["x"] stored for one second at time 0; at time 2 [Get] does not
    find it and the container is empty afterwards. *)
Example scenario_lazy_expiry :
  (λ m, ((Get "x" m).1, Len (Get "x" m).2))
    <$> new_then 0 2 [Clock (Some 0)] [OSet "x" (VInt 1) 1; OClock 2000000000]
  = Some ((VNil, false), 0).
Proof. vm_compute. reflexivity. Qed.

(** ** C1: when the expiry callback is invoked *)

(** No eviction invokes the callback, whichever phase removes the
    entry. *)
Lemma freeSpace_silent n m m' :
  inv m → freeSpace n m = Some m' → fired m' = fired m.
Proof.
  intros Hinv Hrun. destruct (freeSpace_evicts n m Hinv) as (m2 & Hrun2 & E).
  rewrite Hrun in Hrun2. injection Hrun2 as <-. apply E.
Qed.

(** [Set] never invokes the callback. *)
Lemma Set_silent m k v ttl r m' :
  inv m → Set_ k v ttl m = Some (r, m') → fired m' = fired m.
Proof.
  intros Hinv Hset.
  destruct (Z.le_gt_cases ttl 0) as [Hbad|Hok].
  { rewrite Set_invalid in Hset by done. by injection Hset as _ <-. }
  destruct (toEpochSeconds_valid m ttl Hok) as [e He].
  destruct (elements m !! k) as [mapEl|] eqn:Hk.
  - rewrite (Set_existing m k mapEl v ttl e Hk He) in Hset. by injection Hset as _ <-.
  - destruct (Set_new m k v ttl e Hinv Hk He) as (m1 & _ & Hrun & E & _).
    rewrite Hrun in Hset. injection Hset as _ <-. apply E.
Qed.

(** C1, evaluated where the code departs from it.  A container of
    capacity 1 with a callback stores ["a"] for one second at time 0.
    At time 2 the entry has expired.  The first phase of [freeSpace]
    ([removeExpired 1]) then removes it (one removed, size 0, ["a"]
    gone) and the callback has not been invoked; the same holds for the
    whole [Set] of ["b"] that triggers the eviction.  [Get "a"] at the
    same moment removes the entry and does invoke the callback with the
    key and the value. *)
Theorem C1_expired_eviction_skips_callback :
  let opts := [Clock (Some 0); CallOnExpire true] in
  let ops := [OSet "a" (VInt 1) 1; OClock 2000000000] in
  (λ '(removed, m), (removed, observe ["a"] m, onExpire m))
    <$> (new_then 0 1 opts ops ≫= removeExpired 1)
  = Some (1, (0, [None], []), true) ∧
  observe ["a"; "b"] <$> new_then 0 1 opts (ops ++ [OSet "b" (VInt 2) 1])
  = Some (1, [None; Some (VInt 2, 3)], []) ∧
  observe ["a"] <$> new_then 0 1 opts (ops ++ [OGet "a"])
  = Some (0, [None], [("a", VInt 1)]).
Proof. vm_compute. done. Qed.

(** ** C2: the capacity bound *)

(** C2.  Start from a container built by [NewMap] with capacity [c]
    (so [c > 0]).  After any sequence of [Set] calls, with any keys,
    values and TTLs and at any clock readings, the calls have all
    returned and the container holds at most [c] entries.  In the state
    reached, a [Set] of a new key with a valid TTL while [c] or more
    entries are stored first runs [freeSpace 1], which frees one slot,
    and then inserts, so the size is again what it was. *)
Theorem C2_capacity_bound realtime c opts m0 cs :
  NewMap realtime c opts = inr m0 →
  ∃ m, run (set_calls cs) m0 = Some m ∧ Len m ≤ c ∧
       ∀ k v ttl, elements m !! k = None → c ≤ Len m → 0 < ttl →
         ∃ e m1, toEpochSeconds m ttl = inr e ∧
                 freeSpace 1 m = Some m1 ∧ Len m1 = Len m - 1 ∧
                 Set_ k v ttl m = Some (None, insert_new k v e m1) ∧
                 Len (insert_new k v e m1) = Len m.
Proof.
  intros Hnew.
  destruct (NewMap_inv _ _ _ _ Hnew) as [Hinv0 Hb0].
  destruct (NewMap_ok _ _ _ _ Hnew) as (Hc & Hcap & _).
  destruct (run_inv (set_calls cs) m0 Hinv0) as (m & Hrun & Hinv & Hcap' & Hb).
  destruct (Hb Hb0) as [_ Hlen].
  assert (capacity m = c) as Hcm by congruence.
  exists m. unfold Len. split_and!; [done | lia |].
  intros k v ttl Hk Hfull Httl.
  destruct (toEpochSeconds_valid m ttl Httl) as [e He].
  destruct (Set_new m k v ttl e Hinv Hk He) as (m1 & Hfree & Hset & E & Hk1).
  rewrite Hcm in Hfree, E.
  destruct (Z.geb_spec (len m) c); [|lia].
  pose proof (ev_len _ _ _ E) as Hl.
  exists e, m1. split_and!; try done; [lia|].
  rewrite insertion_len by done. lia.
Qed.

Lemma C2_capacity_bound_witness :
  ∃ m, run (set_calls [(0, "a", VInt 1, 10); (1000000000, "b", VInt 2, 5);
                       (2000000000, "c", VInt 3, 10)]) sample_new = Some m ∧
       Len m ≤ 2 ∧
       ∀ k v ttl, elements m !! k = None → 2 ≤ Len m → 0 < ttl →
         ∃ e m1, toEpochSeconds m ttl = inr e ∧
                 freeSpace 1 m = Some m1 ∧ Len m1 = Len m - 1 ∧
                 Set_ k v ttl m = Some (None, insert_new k v e m1) ∧
                 Len (insert_new k v e m1) = Len m.
Proof.
  apply (C2_capacity_bound 0 2 [Clock (Some 0); CallOnExpire true]).
  reflexivity.
Defined.

(** ** C3: expiry as seen by [Get] *)

(** C3 as stated fails for a TTL whose duration overflows
    [time.Duration].  At time 0 [Set "k" 7 9223372037] succeeds; the
    duration [time.Second * 9223372037] wraps to a negative number of
    nanoseconds, the entry is stored with expiry time -9223372037, and
    [Get "k"] at time 0, which is before 0 + 9223372037, reports the
    key as not found. *)
Lemma C3_counterexample :
  let m := mkState 1 ∅ [] 0 false ∅ ∅ [] in
  NewMap 0 1 [Clock (Some 0)] = inr m ∧
  ∃ m1, Set_ "k" (VInt 7) 9223372037 m = Some (None, m1) ∧
        entry m1 "k" = Some (VInt 7, -9223372037) ∧
        now m1 < now m + 9223372037 ∧
        (Get "k" m1).1 = (VNil, false).
Proof.
  split; [reflexivity|].
  eexists. split; [vm_compute; reflexivity|].
  vm_compute. done.
Qed.

(** C3, amended.  Let [Set k v ttl] succeed on a well-formed container
    at clock reading [now m] (epoch seconds), with [ttl] at most
    9223372036 seconds, the largest TTL whose nanoseconds fit
    [time.Duration].  In any later state [m2] in which the entry of [k]
    is still the one this [Set] stored, [Get k] returns the value and
    [true], leaving the container as it is, when the clock reads less
    than [now m + ttl], and returns nil and [false] when it reads
    [now m + ttl] or more. *)
Theorem C3_expiry_correct m k v ttl m1 m2 :
  inv m → ttl ≤ max_ttl →
  Set_ k v ttl m = Some (None, m1) →
  entry m2 k = entry m1 k →
  (now m2 < now m + ttl → Get k m2 = ((v, true), m2)) ∧
  (now m + ttl ≤ now m2 → (Get k m2).1 = (VNil, false)).
Proof.
  intros Hinv Hmax Hset Hsame.
  destruct (Set_entry m k v ttl m1 Hinv Hset) as (e & Httl & He & Hentry & _).
  rewrite toEpochSeconds_ok in He by lia. injection He as <-.
  rewrite <- Hsame in Hentry. split; intros Hclock.
  - by apply (Get_live m2 k v (now m + ttl)).
  - by apply (Get_dead m2 k v (now m + ttl)).
Qed.

Lemma C3_expiry_correct_witness :
  ∃ m1, Set_ "k" (VInt 7) 10 sample = Some (None, m1) ∧
        Get "k" (set_clock 9999999999 m1) = ((VInt 7, true), set_clock 9999999999 m1) ∧
        (Get "k" (set_clock 10000000000 m1)).1 = (VNil, false).
Proof.
  eexists. split; [vm_compute; reflexivity|].
  split.
  - eapply (C3_expiry_correct sample "k" (VInt 7) 10).
    + apply sample_inv.
    + unfold max_ttl. lia.
    + vm_compute. reflexivity.
    + reflexivity.
    + vm_compute. reflexivity.
  - eapply (C3_expiry_correct sample "k" (VInt 7) 10).
    + apply sample_inv.
    + unfold max_ttl. lia.
    + vm_compute. reflexivity.
    + reflexivity.
    + vm_compute. discriminate.
Defined.

(** ** C4: the two phases of [freeSpace] *)

(** C4.  On a well-formed container [freeSpace n] returns, and
    - its first phase [removeExpired n] removes [r] entries, at most
      [n]; each of them had expired (priority at most [now]) and none
      of the entries it leaves expires earlier; the entries it leaves
      are stored as they were; when it removed fewer than [n], no
      expired entry is left;
    - the second phase removes further entries, again none later than
      one it leaves, until [n] are gone in all or the container is
      empty: the final size is the size minus [min n size], hence [n]
      slots are freed when at least [n] entries were stored;
    - no callback is invoked.
    Consequently, when a container of capacity 2 holds exactly two
    keys and [k1] expires before [k2], a [Set] of a third key evicts
    [k1], keeps [k2] as it was and stores the third. *)
Theorem C4_freeSpace_two_phase m n :
  inv m → 0 ≤ n →
  (∃ r m1 m2,
     removeExpired n m = Some (r, m1) ∧ freeSpace n m = Some m2 ∧
     0 ≤ r ≤ n ∧ Len m1 = Len m - r ∧
     (∀ k x, entry m1 k = Some x → entry m k = Some x) ∧
     (∀ k v p, entry m k = Some (v, p) → entry m1 k = None →
        p ≤ now m ∧ ∀ k' v' p', entry m1 k' = Some (v', p') → p ≤ p') ∧
     (r < n → ∀ k v p, entry m1 k = Some (v, p) → now m < p) ∧
     Len m2 = Len m - Z.min n (Len m) ∧
     (n ≤ Len m → Len m - Len m2 = n) ∧
     (∀ k x, entry m2 k = Some x → entry m1 k = Some x) ∧
     (∀ k v p k' v' p', entry m1 k = Some (v, p) → entry m2 k = None →
        entry m2 k' = Some (v', p') → p ≤ p') ∧
     fired m2 = fired m) ∧
  (∀ k1 k2 k3 v1 v2 v3 p1 p2 ttl,
     capacity m = 2 → Len m = 2 →
     entry m k1 = Some (v1, p1) → entry m k2 = Some (v2, p2) →
     entry m k3 = None → p1 < p2 → 0 < ttl →
     ∃ e m', toEpochSeconds m ttl = inr e ∧
             Set_ k3 v3 ttl m = Some (None, m') ∧
             entry m' k1 = None ∧ entry m' k2 = Some (v2, p2) ∧
             entry m' k3 = Some (v3, e) ∧ Len m' = 2).
Proof.
  intros Hinv Hn. split.
  - destruct (freeSpace_spec n m Hinv)
      as (r & m1 & m2 & Hrun1 & Hrun2 & E1 & Hr & Hexp & Hrest & E2).
    pose proof (ev_count _ _ _ E1) as Hr0.
    pose proof (ev_len _ _ _ E1) as Hl1.
    pose proof (ev_len _ _ _ E2) as Hl2.
    pose proof (len_nonneg m1) as Hpos.
    exists r, m1, m2. unfold Len. split_and!; try done; try lia.
    + apply E1.
    + intros k v p Hk Hgone. split; [by apply (Hexp k v p)|].
      intros k' v' p'. by apply (ev_order _ _ _ E1 k v p).
    + apply E2.
    + apply E2.
    + by rewrite (ev_fired _ _ _ E2), (ev_fired _ _ _ E1).
  - intros k1 k2 k3 v1 v2 v3 p1 p2 ttl Hcap Hlen H1 H2 H3 Hlt Httl.
    unfold Len in *.
    destruct (toEpochSeconds_valid m ttl Httl) as [e He].
    apply entry_None in H3.
    destruct (Set_new m k3 v3 ttl e Hinv H3 He) as (m1 & Hfree & Hset & _ & Hk3).
    rewrite Hcap, Hlen in Hfree. change (2 >=? 2) with true in Hfree. cbn iota in Hfree.
    destruct (freeSpace_one m Hinv) as (el & m1' & Hpeek & Hfree' & E & Hentry); [lia|].
    rewrite Hfree in Hfree'. injection Hfree' as <-.
    pose proof (PeekEl_elem _ _ _ Hpeek) as Hin.
    destruct (handle_entry m el Hinv Hin) as [v0 Hv0].
    assert (k1 ≠ k2) as H12 by (intros ->; rewrite H1 in H2; injection H2; lia).
    assert (victim m el ≠ k2) as Hnot2.
    { intros Heq. rewrite Heq, H2 in Hv0. injection Hv0 as _ Hp.
      destruct (entry_handle m k1 v1 p1 Hinv H1) as (h & Hh & Hph & _).
      pose proof (PeekEl_min _ _ _ h Hpeek Hh) as Hmin.
      unfold ElementAt in *. lia. }
    assert (victim m el = k1) as Hvictim.
    { destruct (decide (victim m el = k1)) as [|Hnot1]; [done|].
      assert (3 ≤ len m); [|lia].
      apply (three_keys m k1 k2 (victim m el)); try done; try congruence.
      - apply entry_Some in H1 as (? & ? & _). eauto.
      - apply entry_Some in H2 as (? & ? & _). eauto.
      - apply entry_Some in Hv0 as (? & ? & _). eauto. }
    exists e, (insert_new k3 v3 e m1). split_and!; try done.
    + rewrite insertion_entry by (apply E || done).
      destruct (decide (k1 = k3)) as [->|]; [apply entry_None in H3; congruence|].
      rewrite Hentry, Hvictim. by case_decide.
    + rewrite insertion_entry by (apply E || done).
      destruct (decide (k2 = k3)) as [->|]; [apply entry_None in H3; congruence|].
      rewrite Hentry. by case_decide.
    + rewrite insertion_entry by (apply E || done). by case_decide.
    + rewrite insertion_len by done. rewrite (ev_len _ _ _ E). lia.
Qed.

Lemma C4_freeSpace_two_phase_witness :
  (∃ r m1 m2, removeExpired 1 sample = Some (r, m1) ∧
              freeSpace 1 sample = Some m2 ∧ Len sample - Len m2 = 1) ∧
  (∃ e m', toEpochSeconds sample 10 = inr e ∧
           Set_ "c" (VInt 3) 10 sample = Some (None, m') ∧
           entry m' "a" = None ∧ entry m' "b" = Some (VString "string", 20) ∧
           entry m' "c" = Some (VInt 3, e) ∧ Len m' = 2).
Proof.
  destruct (C4_freeSpace_two_phase sample 1 sample_inv) as [Hphases Hthird].
  { lia. }
  split.
  - destruct Hphases as (r & m1 & m2 & H1 & H2 & _ & _ & _ & _ & _ & _ & Hfreed & _).
    exists r, m1, m2. split_and!; [done | done |].
    apply Hfreed. vm_compute. discriminate.
  - apply (Hthird "a" "b" "c" (VInt 1) (VString "string") (VInt 3) 10 20 10).
    + reflexivity.
    + vm_compute. reflexivity.
    + vm_compute. reflexivity.
    + vm_compute. reflexivity.
    + vm_compute. reflexivity.
    + lia.
    + lia.
Defined.

(** ** C5: a stored value that is not an integer *)

(** C5 as stated fails for a TTL that is not positive: the TTL is
    checked before the stored value is looked at.  ["b"] holds a
    string that has not expired, and [Increment "b" 1 0] fails with
    [InvalidTTL], not with [TypeMismatch]. *)
Lemma C5_counterexample :
  let m := sample in
  entry m "b" = Some (VString "string", 20) ∧ now m < 20 ∧
  Increment "b" 1 0 m = Some ((0, Some (InvalidTTL 0)), m).
Proof. vm_compute. done. Qed.

(** C5, amended.  Let [k] hold a value that is not an [int] and has
    not expired.  [Increment k d ttl] fails with [TypeMismatch] when
    [ttl] is positive (and with [InvalidTTL] when it is not), and
    [GetInt k] fails with [TypeMismatch]; the failing call returns the
    container exactly as it was: value, expiry time and number of
    entries are unchanged. *)
Theorem C5_type_mismatch m k v p d ttl :
  entry m k = Some (v, p) → now m < p → (∀ n, v ≠ VInt n) →
  Increment k d ttl m =
    Some ((0, Some (if decide (0 < ttl) then TypeMismatch v else InvalidTTL ttl)), m) ∧
  GetInt k m = ((0, false, Some (TypeMismatch v)), m).
Proof.
  intros He Hlive Hv. split.
  - case_decide as Httl.
    + destruct (toEpochSeconds_valid m ttl Httl) as [e Hexp].
      destruct (Increment_live m k v p d ttl e He Hlive Hexp) as (mapEl & _ & Hval & ->).
      rewrite increment_mismatch by (rewrite Hval; done). by rewrite Hval.
    + apply Increment_invalid. lia.
  - unfold GetInt. rewrite (Get_live m k v p He Hlive).
    destruct v as [|n|s|b]; try done. by destruct (Hv n).
Qed.

Lemma C5_type_mismatch_witness :
  Increment "b" 1 5 sample =
    Some ((0, Some (TypeMismatch (VString "string"))), sample) ∧
  GetInt "b" sample = ((0, false, Some (TypeMismatch (VString "string"))), sample).
Proof.
  apply (C5_type_mismatch sample "b" (VString "string") 20 1 5).
  - vm_compute. reflexivity.
  - vm_compute. reflexivity.
  - intros n. discriminate.
Defined.

(** ** C6: [Increment] *)

(** C6 as stated fails for a TTL whose duration overflows
    [time.Duration].  On a fresh container at time 0,
    [Increment "k" 1 9223372037] stores 1 with expiry time -9223372037
    instead of 0 + 9223372037; the entry has expired at once, so the
    next [Increment "k" 2 9223372037] stores 2 afresh: the stored value
    is 2 and not 1 + 2. *)
Lemma C6_counterexample :
  let m := mkState 1 ∅ [] 0 false ∅ ∅ [] in
  NewMap 0 1 [Clock (Some 0)] = inr m ∧
  ∃ m1 m2, Increment "k" 1 9223372037 m = Some ((1, None), m1) ∧
           entry m1 "k" = Some (VInt 1, -9223372037) ∧
           Increment "k" 2 9223372037 m1 = Some ((2, None), m2) ∧
           entry m2 "k" = Some (VInt 2, -9223372037).
Proof.
  split; [reflexivity|].
  eexists _, _. split; [vm_compute; reflexivity|].
  split; [vm_compute; reflexivity|].
  split; vm_compute; reflexivity.
Qed.

Lemma Set_valid m k v ttl :
  inv m → 0 < ttl →
  ∃ e m1, toEpochSeconds m ttl = inr e ∧ Set_ k v ttl m = Some (None, m1) ∧
          entry m1 k = Some (v, e) ∧ inv m1.
Proof.
  intros Hinv Httl.
  destruct (Set_step m k v ttl Hinv) as (r & m1 & Hset & _).
  destruct r as [err|].
  { unfold Set_ in Hset. destruct (toEpochSeconds_valid m ttl Httl) as [e He].
    rewrite He in Hset. destruct (elements m !! k); [done|].
    by destruct (if len m >=? capacity m then freeSpace 1 m else Some m). }
  destruct (Set_entry m k v ttl m1 Hinv Hset) as (e & _ & He & Hentry & Hinv1).
  by exists e, m1.
Qed.

Lemma Increment_fresh m k d ttl :
  inv m → 0 < ttl →
  (entry m k = None ∨ ∃ v p, entry m k = Some (v, p) ∧ p ≤ now m) →
  ∃ e m1, toEpochSeconds m ttl = inr e ∧
          Set_ k (VInt d) ttl m = Some (None, m1) ∧
          Increment k d ttl m = Some ((d, None), m1) ∧
          entry m1 k = Some (VInt d, e) ∧ inv m1.
Proof.
  intros Hinv Httl Hcase.
  destruct (Set_valid m k (VInt d) ttl Hinv Httl) as (e & m1 & He & Hset & Hentry & Hinv1).
  exists e, m1. split_and!; try done.
  by rewrite Increment_as_Set, Hset.
Qed.

Lemma Increment_add m k n p d ttl e :
  inv m → entry m k = Some (VInt n, p) → now m < p →
  toEpochSeconds m ttl = inr e →
  ∃ m1, Increment k d ttl m = Some ((add_int n d, None), m1) ∧
        entry m1 k = Some (VInt (add_int n d), e) ∧
        Len m1 = Len m ∧ (∀ k', k' ≠ k → entry m1 k' = entry m k') ∧
        elements m1 = elements m ∧ expiryTimes m1 = expiryTimes m ∧
        fired m1 = fired m.
Proof.
  intros Hinv He Hlive Hexp.
  destruct (Increment_live m k (VInt n) p d ttl e He Hlive Hexp) as (mapEl & Hk & Hv & ->).
  rewrite (increment_int m mapEl n d e Hv).
  eexists. split; [reflexivity|]. split_and!; try done.
  - rewrite (overwrite_entry m k) by done. by case_decide.
  - intros k' Hne. rewrite (overwrite_entry m k) by done. by case_decide.
Qed.

(** C6, amended.  Let the TTL be positive and [e] the expiry time
    [Set] computes for it, which is [now + ttl] when [ttl] is at most
    9223372036 seconds.
    - When [k] is absent or has expired, [Increment k d ttl] does what
      [Set k d ttl] does and returns [d]; [k] then holds [d] until [e].
    - When [k] holds an integer [n] that has not expired,
      [Increment k d ttl] returns [n + d] (the sum of Go's [int], which
      is the mathematical sum when that fits 64 bits), [k] holds this
      sum until [e], and the number of entries and the other keys are
      unchanged.
    - Hence, with a TTL of at most 9223372036 seconds, two successive
      calls [Increment k d ttl] and [Increment k b ttl] on a key not
      stored before, the second made before the first one's expiry
      time, leave [d + b] under [k]. *)
Theorem C6_increment m k d ttl :
  inv m → 0 < ttl →
  ∃ e, toEpochSeconds m ttl = inr e ∧ (ttl ≤ max_ttl → e = now m + ttl) ∧
    ((entry m k = None ∨ ∃ v p, entry m k = Some (v, p) ∧ p ≤ now m) →
       ∃ m1, Set_ k (VInt d) ttl m = Some (None, m1) ∧
             Increment k d ttl m = Some ((d, None), m1) ∧
             entry m1 k = Some (VInt d, e)) ∧
    (∀ n p, entry m k = Some (VInt n, p) → now m < p →
       ∃ m1, Increment k d ttl m = Some ((add_int n d, None), m1) ∧
             entry m1 k = Some (VInt (add_int n d), e) ∧
             (int_min ≤ n + d ≤ int_max → add_int n d = n + d) ∧
             Len m1 = Len m ∧ ∀ k', k' ≠ k → entry m1 k' = entry m k') ∧
    (∀ b t2, entry m k = None → ttl ≤ max_ttl → Unix t2 < now m + ttl →
       ∃ m1 m2, Increment k d ttl m = Some ((d, None), m1) ∧
                Increment k b ttl (set_clock t2 m1) = Some ((add_int d b, None), m2) ∧
                entry m2 k = Some (VInt (add_int d b), Unix t2 + ttl) ∧
                (int_min ≤ d + b ≤ int_max → add_int d b = d + b)).
Proof.
  intros Hinv Httl.
  destruct (toEpochSeconds_valid m ttl Httl) as [e He].
  exists e. split; [done|]. split_and!.
  - intros Hmax. rewrite toEpochSeconds_ok in He by lia. by injection He.
  - intros Hcase.
    destruct (Increment_fresh m k d ttl Hinv Httl Hcase) as (e' & m1 & He' & ? & ? & ? & _).
    rewrite He in He'. injection He' as <-. by exists m1.
  - intros n p Hentry Hlive.
    destruct (Increment_add m k n p d ttl e Hinv Hentry Hlive He)
      as (m1 & ? & ? & ? & ? & _).
    exists m1. split_and!; try done. apply wrap64_id.
  - intros b t2 Habsent Hmax Ht2.
    destruct (Increment_fresh m k d ttl Hinv Httl (or_introl Habsent))
      as (e' & m1 & He' & _ & Hinc & Hentry & Hinv1).
    rewrite toEpochSeconds_ok in He' by lia. injection He' as <-.
    destruct (Increment_add (set_clock t2 m1) k d (now m + ttl) b ttl (Unix t2 + ttl))
      as (m2 & ? & ? & _); try done.
    + by apply set_clock_inv.
    + by apply (toEpochSeconds_ok (set_clock t2 m1)).
    + exists m1, m2. split_and!; try done. apply wrap64_id.
Qed.

Lemma C6_increment_witness :
  ∃ m1 m2, Increment "k" 1 10 sample_new = Some ((1, None), m1) ∧
           Increment "k" 2 10 (set_clock 5000000000 m1) = Some ((add_int 1 2, None), m2) ∧
           entry m2 "k" = Some (VInt (add_int 1 2), 15) ∧ add_int 1 2 = 3.
Proof.
  destruct (C6_increment sample_new "k" 1 10 sample_new_inv) as (e & _ & _ & _ & _ & Htwice).
  { lia. }
  destruct (Htwice 2 5000000000) as (m1 & m2 & H1 & H2 & H3 & H4).
  - reflexivity.
  - unfold max_ttl. lia.
  - vm_compute. reflexivity.
  - exists m1, m2. by split_and!.
Defined.

(** ** C7: a TTL that is not positive *)

(** C7.  With [ttlSeconds ≤ 0], [Set] and [Increment] return the
    [InvalidTTL] error and the container they return is the one they
    were given: nothing is created, removed, modified or evicted. *)
Theorem C7_invalid_ttl m k v d ttl :
  ttl ≤ 0 →
  Set_ k v ttl m = Some (Some (InvalidTTL ttl), m) ∧
  Increment k d ttl m = Some ((0, Some (InvalidTTL ttl)), m).
Proof.
  intros Httl. split; [by apply Set_invalid | by apply Increment_invalid].
Qed.

Lemma C7_invalid_ttl_witness :
  Set_ "c" (VInt 3) 0 sample = Some (Some (InvalidTTL 0), sample) ∧
  Increment "a" 1 (-5) sample = Some ((0, Some (InvalidTTL (-5))), sample).
Proof.
  split.
  - apply (C7_invalid_ttl sample "c" (VInt 3) 0 0). lia.
  - apply (C7_invalid_ttl sample "a" VNil 1 (-5)). lia.
Defined.

(** ** C8: the map and the queue stay in step *)

(** C8.  Every public operation ([Set], [Get], [Increment], [GetInt],
    [Len]; the environment moving the clock as well) returns when run
    on a well-formed container and returns a well-formed container:
    map and queue are in bijection (I2: each stored key has exactly one
    queued handle, each queued handle stands for a stored key, no
    handle is queued twice, there are as many handles as keys), and
    the handle queued for a key is the one its map element holds, so
    that the priority of the handle is the expiry time of the entry
    (I3), also right after [Set] or [Increment] refreshed the TTL.
    [NewMap_inv] shows that a new container is well-formed. *)
Theorem C8_joint_invariant m o :
  inv m →
  ∃ m', step o m = Some m' ∧ inv m' ∧ bijection m' ∧ priority_is_expiry m'.
Proof.
  intros Hinv. destruct (step_inv o m Hinv) as (m' & Hstep & Hinv' & _).
  exists m'. split_and!; [done | done | by apply inv_bijection | by apply inv_priority].
Qed.

Lemma C8_joint_invariant_witness :
  ∃ m', step (OIncrement "a" 5 30) sample = Some m' ∧ inv m' ∧
        bijection m' ∧ priority_is_expiry m'.
Proof. apply (C8_joint_invariant sample (OIncrement "a" 5 30)), sample_inv. Defined.

(** ** C9: overwriting a stored key *)

(** C9.  On a well-formed container that stores [k], [Set k v ttl]
    with a valid TTL succeeds and works in place: the map holds the
    same keys with the same map elements, the queue holds the same
    handles, so nothing is added, removed or evicted and [Len] is
    unchanged; [k] now holds [v] with the new expiry time; every other
    key has the value and the expiry time it had; no callback is
    invoked. *)
Theorem C9_overwrite_in_place m k v ttl :
  inv m → is_Some (elements m !! k) → 0 < ttl →
  ∃ e m', toEpochSeconds m ttl = inr e ∧
          Set_ k v ttl m = Some (None, m') ∧
          Len m' = Len m ∧
          elements m' = elements m ∧ expiryTimes m' = expiryTimes m ∧
          entry m' k = Some (v, e) ∧
          (∀ k', k' ≠ k → entry m' k' = entry m k') ∧
          fired m' = fired m.
Proof.
  intros Hinv [mapEl Hk] Httl.
  destruct (toEpochSeconds_valid m ttl Httl) as [e He].
  exists e, (overwrite mapEl v e m).
  rewrite (Set_existing m k mapEl v ttl e Hk He).
  split_and!; try done.
  - rewrite (overwrite_entry m k) by done. by case_decide.
  - intros k' Hne. rewrite (overwrite_entry m k) by done. by case_decide.
Qed.

Lemma C9_overwrite_in_place_witness :
  ∃ e m', toEpochSeconds sample 7 = inr e ∧
          Set_ "a" (VString "new") 7 sample = Some (None, m') ∧
          Len m' = Len sample ∧
          elements m' = elements sample ∧ expiryTimes m' = expiryTimes sample ∧
          entry m' "a" = Some (VString "new", e) ∧
          (∀ k', k' ≠ "a" → entry m' k' = entry sample k') ∧
          fired m' = fired sample.
Proof.
  apply (C9_overwrite_in_place sample "a" (VString "new") 7).
  - apply sample_inv.
  - vm_compute. eauto.
  - lia.
Defined.

(** ** C10: [Len] counts expired entries *)

(** C10.  [Len] does not look at the clock.  Let a well-formed
    container store [k] with expiry time [p].  However the clock
    moves, also to [p] or past it, [Len] returns the same count and
    changes nothing.  Once the clock reads [p] or more, [Get k]
    reports the key as not found and removes the entry, and only then
    [Len] is one less. *)
Theorem C10_len_counts_expired m k v p :
  inv m → entry m k = Some (v, p) →
  ∀ t, Len (set_clock t m) = Len m ∧
       step OLen (set_clock t m) = Some (set_clock t m) ∧
       (p ≤ Unix t →
        ∃ m', Get k (set_clock t m) = ((VNil, false), m') ∧
              entry m' k = None ∧ Len m' = Len m - 1).
Proof.
  intros Hinv He t. split_and!; try done.
  intros Hdead.
  destruct (Get_expired (set_clock t m) k v p) as (m' & Hget & _ & Hlen & Hentry & _);
    try done.
  { by apply set_clock_inv. }
  exists m'. split_and!; try done.
  rewrite Hentry. by case_decide.
Qed.

Lemma C10_len_counts_expired_witness :
  Len (set_clock 12000000000 sample) = Len sample ∧
  step OLen (set_clock 12000000000 sample) = Some (set_clock 12000000000 sample) ∧
  ∃ m', Get "a" (set_clock 12000000000 sample) = ((VNil, false), m') ∧
        entry m' "a" = None ∧ Len m' = Len sample - 1.
Proof.
  destruct (C10_len_counts_expired sample "a" (VInt 1) 10 sample_inv) with (t := 12000000000)
    as (H1 & H2 & H3).
  { vm_compute. reflexivity. }
  split_and!; try done. apply H3. vm_compute. discriminate.
Defined.

(** * Further properties of the code *)

(** ** Construction *)

(** X1.  [NewMap] fails, with the capacity error, exactly when the
    capacity is not positive.  Otherwise it returns a well-formed
    container of that capacity which is empty: [Len] is 0, no callback
    has been invoked, and [Get] finds no key and changes nothing. *)
Theorem X1_NewMap_result realtime c opts :
  match NewMap realtime c opts with
  | inl e => e = InvalidCapacity ∧ c ≤ 0
  | inr m => 0 < c ∧ capacity m = c ∧ Len m = 0 ∧ fired m = [] ∧ inv m ∧
             ∀ k, Get k m = ((VNil, false), m)
  end.
Proof.
  destruct (NewMap realtime c opts) as [e|m] eqn:Hnew.
  - unfold NewMap in Hnew. destruct (Z.leb_spec c 0); [|done].
    by injection Hnew as <-.
  - destruct (NewMap_ok _ _ _ _ Hnew) as (Hc & Hcap & Hel & _ & Hf).
    destruct (NewMap_inv _ _ _ _ Hnew) as [Hinv _].
    split_and!; try done.
    + unfold Len, len. by rewrite Hel, map_size_empty.
    + intros k. apply Get_absent. by rewrite Hel, lookup_empty.
Qed.

(** X2.  Options are applied in the order given, so the last one of a
    kind decides: a final [Clock] option sets the clock (the real-time
    clock when it passes nil) and leaves the callback as the options
    before it set it; a final [CallOnExpire] sets the callback and
    leaves the clock. *)
Theorem X2_last_option_wins realtime c opts o m :
  NewMap realtime c (opts ++ [o]) = inr m →
  ∃ m0, NewMap realtime c opts = inr m0 ∧
        match o with
        | Clock p => TimeProvider m = default realtime p ∧ onExpire m = onExpire m0
        | CallOnExpire cb => onExpire m = cb ∧ TimeProvider m = TimeProvider m0
        end.
Proof.
  unfold NewMap. destruct (Z.leb_spec c 0); [done|]. intros [= <-].
  eexists. split; [reflexivity|].
  rewrite fold_left_app. simpl. by destruct o.
Qed.

Lemma X2_last_option_wins_witness :
  ∃ m0, NewMap 7 2 [Clock (Some 5); CallOnExpire true] = inr m0 ∧
        TimeProvider sample_new = default 7 (Some 0) ∧
        onExpire sample_new = onExpire m0.
Proof.
  apply (X2_last_option_wins 7 2 [Clock (Some 5); CallOnExpire true] (Clock (Some 0))).
  reflexivity.
Defined.

(** X3.  [NewMapWithProvider] rejects a nil provider before it looks
    at the capacity.  With a provider it is [NewMap] with that
    provider as its only option: the real-time clock plays no part, the
    clock of the container is the provider's, no callback is
    registered. *)
Theorem X3_NewMapWithProvider realtime c p :
  match p with
  | None => NewMapWithProvider realtime c p = inl MissingTimeProvider
  | Some t =>
    NewMapWithProvider realtime c p = NewMap 0 c [Clock (Some t)] ∧
    ∀ m, NewMapWithProvider realtime c p = inr m →
         TimeProvider m = t ∧ onExpire m = false ∧ capacity m = c
  end.
Proof.
  destruct p as [t|]; [|done]. unfold NewMapWithProvider, NewMap.
  destruct (Z.leb_spec c 0); [done|]. split; [done|]. by intros m [= <-].
Qed.

(** ** Runs *)

(** X4.  Starting from a container built by [NewMap], no sequence of
    public calls and clock changes panics; the container stays
    well-formed, its capacity is the one it was built with, and [Len]
    stays between 0 and the capacity. *)
Theorem X4_runs_never_panic realtime c opts m0 ops :
  NewMap realtime c opts = inr m0 →
  ∃ m, run ops m0 = Some m ∧ inv m ∧ capacity m = c ∧ 0 ≤ Len m ≤ c.
Proof.
  intros Hnew.
  assert (new_then realtime c opts ops = run ops m0) as Hrun
    by (unfold new_then; by rewrite Hnew).
  destruct (NewMap_inv _ _ _ _ Hnew) as [Hinv0 Hb0].
  destruct (run_inv ops m0 Hinv0) as (m & Hm & _).
  rewrite Hm in Hrun.
  destruct (new_then_inv _ _ _ _ _ Hrun) as (Hinv & [_ Hb] & Hc).
  exists m. pose proof (len_nonneg m). unfold Len. split_and!; try done. lia.
Qed.

Lemma X4_runs_never_panic_witness :
  ∃ m, run [OSet "a" (VInt 1) 1; OIncrement "b" 2 5; OClock 3000000000;
            OGetInt "a"; OSet "c" VNil 9223372037; OGet "c"; OLen] sample_new = Some m ∧
       inv m ∧ capacity m = 2 ∧ 0 ≤ Len m ≤ 2.
Proof.
  apply (X4_runs_never_panic 0 2 [Clock (Some 0); CallOnExpire true]). reflexivity.
Defined.

(** ** [Get] *)

Lemma Get_cases m k :
  inv m →
  match entry m k with
  | None => Get k m = ((VNil, false), m)
  | Some (v, p) =>
    if decide (now m < p) then Get k m = ((v, true), m)
    else ∃ m', Get k m = ((VNil, false), m') ∧ inv m' ∧ Len m' = Len m - 1 ∧
               (∀ k', entry m' k' = if decide (k' = k) then None else entry m k') ∧
               fired m' = (if onExpire m then fired m ++ [(k, v)] else fired m)
  end.
Proof.
  intros Hinv. destruct (entry m k) as [[v p]|] eqn:He.
  - case_decide as Hlive.
    + by apply (Get_live m k v p).
    + destruct (Get_expired m k v p Hinv He) as (m' & ? & ? & ? & ? & ? & _); [lia|].
      by exists m'.
  - apply Get_absent. by apply entry_None.
Qed.

(** X5.  What [Get] does, case by case.  A key that is not stored is
    not found and nothing changes.  A stored key whose expiry time is
    later than the clock is found with its value and nothing changes.
    A stored key whose expiry time has been reached is reported as not
    found; its entry is removed, so [Len] drops by one; every other key
    keeps its entry; the callback, when one is registered, is invoked
    once, with the key and the value that was stored. *)
Theorem X5_Get_effect m k :
  inv m →
  match entry m k with
  | None => Get k m = ((VNil, false), m)
  | Some (v, p) =>
    if decide (now m < p) then Get k m = ((v, true), m)
    else ∃ m', Get k m = ((VNil, false), m') ∧ inv m' ∧ Len m' = Len m - 1 ∧
               (∀ k', entry m' k' = if decide (k' = k) then None else entry m k') ∧
               fired m' = (if onExpire m then fired m ++ [(k, v)] else fired m)
  end.
Proof. apply Get_cases. Qed.

Lemma X5_Get_effect_witness :
  ∃ m', Get "a" (set_clock 10000000000 sample) = ((VNil, false), m') ∧ inv m' ∧
        Len m' = Len (set_clock 10000000000 sample) - 1 ∧
        (∀ k', entry m' k' =
               if decide (k' = "a") then None else entry (set_clock 10000000000 sample) k') ∧
        fired m' = fired sample ++ [("a", VInt 1)].
Proof.
  pose proof (X5_Get_effect (set_clock 10000000000 sample) "a"
                (set_clock_inv _ _ sample_inv)) as H.
  assert (entry (set_clock 10000000000 sample) "a" = Some (VInt 1, 10)) as He
    by (vm_compute; reflexivity).
  rewrite He in H.
  destruct (decide (now (set_clock 10000000000 sample) < 10)) as [Hlt|_].
  { exfalso. vm_compute in Hlt. discriminate. }
  exact H.
Defined.

(** X6.  Asking twice gives the same answer and the second [Get]
    changes nothing: in particular an expired entry is reported to the
    callback once, not once per [Get]. *)
Theorem X6_Get_twice m k :
  inv m → Get k (Get k m).2 = ((Get k m).1, (Get k m).2).
Proof.
  intros Hinv. pose proof (Get_cases m k Hinv) as H.
  destruct (entry m k) as [[v p]|] eqn:He.
  - case_decide as Hlive.
    + rewrite H. simpl. by rewrite H.
    + destruct H as (m' & -> & _ & _ & Hentry & _). simpl.
      apply Get_absent, entry_None. rewrite Hentry. by case_decide.
  - rewrite H. simpl. by rewrite H.
Qed.

Lemma X6_Get_twice_witness :
  Get "a" (Get "a" (set_clock 10000000000 sample)).2 =
  ((Get "a" (set_clock 10000000000 sample)).1, (Get "a" (set_clock 10000000000 sample)).2).
Proof. apply X6_Get_twice, set_clock_inv, sample_inv. Defined.

(** ** What [Set] and [Increment] leave alone *)

Lemma Set_keeps m k v ttl r m' :
  inv m → Set_ k v ttl m = Some (r, m') →
  TimeProvider m' = TimeProvider m ∧ onExpire m' = onExpire m ∧
  capacity m' = capacity m ∧ fired m' = fired m.
Proof.
  intros Hinv Hset.
  destruct (Z.le_gt_cases ttl 0) as [Hbad|Hok].
  { rewrite Set_invalid in Hset by done. by injection Hset as _ <-. }
  destruct (toEpochSeconds_valid m ttl Hok) as [e He].
  destruct (elements m !! k) as [mapEl|] eqn:Hk.
  - rewrite (Set_existing m k mapEl v ttl e Hk He) in Hset. by injection Hset as _ <-.
  - destruct (Set_new m k v ttl e Hinv Hk He) as (m1 & _ & Hrun & E & _).
    rewrite Hrun in Hset. injection Hset as _ <-.
    split_and!; apply E.
Qed.

Lemma Set_frame m k' v ttl r m' k :
  inv m → Set_ k' v ttl m = Some (r, m') → k ≠ k' →
  entry m' k = None ∨ entry m' k = entry m k.
Proof.
  intros Hinv Hset Hne.
  destruct (Z.le_gt_cases ttl 0) as [Hbad|Hok].
  { rewrite Set_invalid in Hset by done. injection Hset as _ <-. by right. }
  destruct (toEpochSeconds_valid m ttl Hok) as [e He].
  destruct (elements m !! k') as [mapEl|] eqn:Hk.
  - rewrite (Set_existing m k' mapEl v ttl e Hk He) in Hset. injection Hset as _ <-.
    right. rewrite (overwrite_entry m k') by done. by case_decide.
  - destruct (Set_new m k' v ttl e Hinv Hk He) as (m1 & _ & Hrun & E & Hk1).
    rewrite Hrun in Hset. injection Hset as _ <-.
    rewrite insertion_entry by (apply E || done).
    destruct (decide (k = k')); [done|].
    destruct (entry m1 k) as [x|] eqn:Hx; [|by left].
    right. symmetry. by apply (ev_kept _ _ _ E).
Qed.

Lemma Increment_cases m k d ttl :
  inv m →
  (ttl ≤ 0 ∧ Increment k d ttl m = Some ((0, Some (InvalidTTL ttl)), m)) ∨
  (0 < ttl ∧ (entry m k = None ∨ ∃ v p, entry m k = Some (v, p) ∧ p ≤ now m) ∧
   ∃ e m1, toEpochSeconds m ttl = inr e ∧ Set_ k (VInt d) ttl m = Some (None, m1) ∧
           Increment k d ttl m = Some ((d, None), m1) ∧
           entry m1 k = Some (VInt d, e)) ∨
  (0 < ttl ∧ ∃ n p e mapEl, entry m k = Some (VInt n, p) ∧ now m < p ∧
     toEpochSeconds m ttl = inr e ∧ elements m !! k = Some mapEl ∧
     Increment k d ttl m =
       Some ((add_int n d, None), overwrite mapEl (VInt (add_int n d)) e m)) ∨
  (0 < ttl ∧ ∃ v p, entry m k = Some (v, p) ∧ now m < p ∧ (∀ n, v ≠ VInt n) ∧
     Increment k d ttl m = Some ((0, Some (TypeMismatch v)), m)).
Proof.
  intros Hinv.
  destruct (Z.le_gt_cases ttl 0) as [Hbad|Hok].
  { left. split; [done|]. by apply Increment_invalid. }
  right.
  assert (0 < ttl) as Httl by lia.
  destruct (entry m k) as [[v p]|] eqn:He.
  - destruct (Z.le_gt_cases p (now m)) as [Hdead|Hlive].
    + left. split; [done|]. split; [right; eauto|].
      destruct (Increment_fresh m k d ttl Hinv Httl) as (e & m1 & ? & ? & ? & ? & _);
        [right; eauto|].
      by exists e, m1.
    + right. destruct (toEpochSeconds_valid m ttl Httl) as [e Hexp].
      destruct (Increment_live m k v p d ttl e He ltac:(lia) Hexp) as (mapEl & Hk & Hv & Hinc).
      assert ((∃ n, v = VInt n) ∨ ∀ n, v ≠ VInt n) as [[n ->]|Hv']
        by (destruct v; eauto).
      * left. split; [done|]. exists n, p, e, mapEl.
        rewrite Hinc, (increment_int m mapEl n d e Hv). by split_and!.
      * right. split; [done|]. exists v, p.
        split_and!; try done.
        rewrite Hinc, increment_mismatch by (by rewrite Hv). by rewrite Hv.
  - left. split; [done|]. split; [by left|].
    destruct (Increment_fresh m k d ttl Hinv Httl) as (e & m1 & ? & ? & ? & ? & _);
      [by left|].
    by exists e, m1.
Qed.

Lemma Increment_keeps m k d ttl r m' :
  inv m → Increment k d ttl m = Some (r, m') →
  TimeProvider m' = TimeProvider m ∧ onExpire m' = onExpire m ∧
  capacity m' = capacity m ∧ fired m' = fired m.
Proof.
  intros Hinv Hinc.
  destruct (Increment_cases m k d ttl Hinv)
    as [[_ H]|[(_ & _ & e & m1 & _ & Hset & H & _)|[(_ & n & p & e & mapEl & _ & _ & _ & _ & H)|
        (_ & v & p & _ & _ & _ & H)]]];
    rewrite H in Hinc; injection Hinc as _ <-; try done.
  by apply (Set_keeps m k (VInt d) ttl None).
Qed.

Lemma Increment_frame m k' d ttl r m' k :
  inv m → Increment k' d ttl m = Some (r, m') → k ≠ k' →
  entry m' k = None ∨ entry m' k = entry m k.
Proof.
  intros Hinv Hinc Hne.
  destruct (Increment_cases m k' d ttl Hinv)
    as [[_ H]|[(_ & _ & e & m1 & _ & Hset & H & _)|[(_ & n & p & e & mapEl & _ & _ & _ & Hk & H)|
        (_ & v & p & _ & _ & _ & H)]]];
    rewrite H in Hinc; injection Hinc as _ <-; try by right.
  - by apply (Set_frame m k' (VInt d) ttl None).
  - right. rewrite (overwrite_entry m k') by done. by case_decide.
Qed.

(** X7.  [Set] and [Increment] never invoke the expiry callback,
    whatever they overwrite or evict, expired or not; they return, and
    they leave the clock, the capacity and the registered callback as
    they were. *)
Theorem X7_writes_are_silent m k v d ttl :
  inv m →
  (∃ r m', Set_ k v ttl m = Some (r, m') ∧ fired m' = fired m ∧
           TimeProvider m' = TimeProvider m ∧ capacity m' = capacity m ∧
           onExpire m' = onExpire m) ∧
  (∃ r m', Increment k d ttl m = Some (r, m') ∧ fired m' = fired m ∧
           TimeProvider m' = TimeProvider m ∧ capacity m' = capacity m ∧
           onExpire m' = onExpire m).
Proof.
  intros Hinv. split.
  - destruct (Set_step m k v ttl Hinv) as (r & m' & Hset & _).
    destruct (Set_keeps m k v ttl r m' Hinv Hset) as (? & ? & ? & ?).
    by exists r, m'.
  - destruct (Increment_step m k d ttl Hinv) as (r & m' & Hinc & _).
    destruct (Increment_keeps m k d ttl r m' Hinv Hinc) as (? & ? & ? & ?).
    by exists r, m'.
Qed.

Lemma X7_writes_are_silent_witness :
  (∃ r m', Set_ "a" (VInt 3) 4 (set_clock 30000000000 sample) = Some (r, m') ∧
           fired m' = fired (set_clock 30000000000 sample) ∧
           TimeProvider m' = TimeProvider (set_clock 30000000000 sample) ∧
           capacity m' = capacity (set_clock 30000000000 sample) ∧
           onExpire m' = onExpire (set_clock 30000000000 sample)) ∧
  (∃ r m', Increment "a" 3 4 (set_clock 30000000000 sample) = Some (r, m') ∧
           fired m' = fired (set_clock 30000000000 sample) ∧
           TimeProvider m' = TimeProvider (set_clock 30000000000 sample) ∧
           capacity m' = capacity (set_clock 30000000000 sample) ∧
           onExpire m' = onExpire (set_clock 30000000000 sample)).
Proof.
  apply (X7_writes_are_silent (set_clock 30000000000 sample) "a" (VInt 3) 3 4).
  apply set_clock_inv, sample_inv.
Defined.

(** ** [Set] of a new key *)

(** X8.  Below capacity, [Set] of a key that is not stored evicts
    nothing: it succeeds, the new key holds the value with the expiry
    time computed from the TTL, every other key keeps its entry, and
    [Len] grows by one. *)
Theorem X8_Set_below_capacity m k v ttl :
  inv m → elements m !! k = None → Len m < capacity m → 0 < ttl →
  ∃ e m', toEpochSeconds m ttl = inr e ∧
          Set_ k v ttl m = Some (None, m') ∧ Len m' = Len m + 1 ∧
          ∀ k', entry m' k' = if decide (k' = k) then Some (v, e) else entry m k'.
Proof.
  unfold Len. intros Hinv Hk Hroom Httl.
  destruct (toEpochSeconds_valid m ttl Httl) as [e He].
  destruct (Set_new m k v ttl e Hinv Hk He) as (m1 & Hfree & Hset & _ & _).
  destruct (Z.geb_spec (len m) (capacity m)); [lia|]. injection Hfree as <-.
  exists e, (insert_new k v e m). split_and!; try done.
  - by apply insertion_len.
  - intros k'. by apply insertion_entry.
Qed.

Lemma X8_Set_below_capacity_witness :
  ∃ e m', toEpochSeconds sample_new 5 = inr e ∧
          Set_ "a" (VInt 1) 5 sample_new = Some (None, m') ∧
          Len m' = Len sample_new + 1 ∧
          ∀ k', entry m' k' = if decide (k' = "a") then Some (VInt 1, e)
                              else entry sample_new k'.
Proof.
  apply (X8_Set_below_capacity sample_new "a" (VInt 1) 5).
  - apply sample_new_inv.
  - reflexivity.
  - vm_compute. reflexivity.
  - lia.
Defined.

(** X9.  At capacity, [Set] of a key that is not stored evicts exactly
    one entry and stores the new one, so [Len] is unchanged.  The
    evicted entry is one with the least expiry time of all stored
    entries, hence an expired one whenever there is one; every other
    key keeps its entry; the callback is not invoked. *)
Theorem X9_Set_at_capacity m k v ttl :
  inv m → elements m !! k = None → 0 < capacity m ≤ Len m → 0 < ttl →
  ∃ e m' kv vv pv,
    toEpochSeconds m ttl = inr e ∧ Set_ k v ttl m = Some (None, m') ∧
    entry m kv = Some (vv, pv) ∧
    (∀ k' v' p', entry m k' = Some (v', p') → pv ≤ p') ∧
    Len m' = Len m ∧
    (∀ k', entry m' k' = if decide (k' = k) then Some (v, e)
                         else if decide (k' = kv) then None else entry m k') ∧
    fired m' = fired m.
Proof.
  unfold Len. intros Hinv Hk Hfull Httl.
  destruct (toEpochSeconds_valid m ttl Httl) as [e He].
  destruct (Set_new m k v ttl e Hinv Hk He) as (m1 & Hfree & Hset & _ & Hk1).
  destruct (Z.geb_spec (len m) (capacity m)); [|lia].
  destruct (freeSpace_one m Hinv) as (el & m1' & Hpeek & Hfree' & E & Hentry); [lia|].
  rewrite Hfree in Hfree'. injection Hfree' as <-.
  pose proof (PeekEl_elem _ _ _ Hpeek) as Hin.
  destruct (handle_entry m el Hinv Hin) as [vv Hvv].
  exists e, (insert_new k v e m1), (victim m el), vv, (Priority (ElementAt m el)).
  split_and!; try done.
  - intros k' v' p' Hk'.
    destruct (entry_handle m k' v' p' Hinv Hk') as (h & Hh & <- & _).
    unfold ElementAt. by apply (PeekEl_min _ (expiryTimes m)).
  - rewrite insertion_len by done. rewrite (ev_len _ _ _ E). lia.
  - intros k'. rewrite insertion_entry by (apply E || done).
    destruct (decide (k' = k)); [done|]. apply Hentry.
  - change (fired (insert_new k v e m1)) with (fired m1). apply E.
Qed.

(** [sample] at 30 seconds: both entries have expired, capacity 2 is
    reached. *)
Lemma X9_Set_at_capacity_witness :
  ∃ e m' kv vv pv,
    toEpochSeconds (set_clock 30000000000 sample) 4 = inr e ∧
    Set_ "c" (VInt 3) 4 (set_clock 30000000000 sample) = Some (None, m') ∧
    entry (set_clock 30000000000 sample) kv = Some (vv, pv) ∧
    (∀ k' v' p', entry (set_clock 30000000000 sample) k' = Some (v', p') → pv ≤ p') ∧
    Len m' = Len (set_clock 30000000000 sample) ∧
    (∀ k', entry m' k' = if decide (k' = "c") then Some (VInt 3, e)
                         else if decide (k' = kv) then None
                         else entry (set_clock 30000000000 sample) k') ∧
    fired m' = fired (set_clock 30000000000 sample).
Proof.
  apply (X9_Set_at_capacity (set_clock 30000000000 sample) "c" (VInt 3) 4).
  - apply set_clock_inv, sample_inv.
  - vm_compute. reflexivity.
  - vm_compute. split; [reflexivity | discriminate].
  - lia.
Defined.

(** X15.  [Set] on a key whose entry has expired but is still stored
    revives it in place: with a TTL of at most 9223372036 seconds the
    call succeeds, [Get] then finds the new value, [Len] is unchanged
    and the callback is never told about the entry that had expired. *)
Theorem X15_Set_revives_expired m k v0 p v ttl :
  inv m → entry m k = Some (v0, p) → p ≤ now m → 0 < ttl ≤ max_ttl →
  ∃ m', Set_ k v ttl m = Some (None, m') ∧ Get k m' = ((v, true), m') ∧
        Len m' = Len m ∧ fired m' = fired m ∧
        ∀ k', k' ≠ k → entry m' k' = entry m k'.
Proof.
  intros Hinv He Hdead Httl.
  apply entry_Some in He as (mapEl & Hk & _ & _).
  rewrite (Set_existing m k mapEl v ttl (now m + ttl) Hk)
    by (by apply toEpochSeconds_ok).
  exists (overwrite mapEl v (now m + ttl) m). split_and!; try done.
  - apply (Get_live _ k v (now m + ttl)).
    + rewrite (overwrite_entry m k) by done. by case_decide.
    + change (now (overwrite mapEl v (now m + ttl) m)) with (now m). lia.
  - intros k' Hne. rewrite (overwrite_entry m k) by done. by case_decide.
Qed.

Lemma X15_Set_revives_expired_witness :
  ∃ m', Set_ "a" (VString "again") 5 (set_clock 30000000000 sample) = Some (None, m') ∧
        Get "a" m' = ((VString "again", true), m') ∧
        Len m' = Len (set_clock 30000000000 sample) ∧
        fired m' = fired (set_clock 30000000000 sample) ∧
        ∀ k', k' ≠ "a" → entry m' k' = entry (set_clock 30000000000 sample) k'.
Proof.
  apply (X15_Set_revives_expired (set_clock 30000000000 sample) "a" (VInt 1) 10).
  - apply set_clock_inv, sample_inv.
  - vm_compute. reflexivity.
  - vm_compute. discriminate.
  - unfold max_ttl. lia.
Defined.

(** ** [Increment] *)

Lemma wrap64_over z : int_max < z ≤ int_max + 2 ^ 64 → wrap64 z = z - 2 ^ 64.
Proof.
  unfold wrap64, int_max. intros Hz.
  replace (z + 2 ^ 63) with ((z + 2 ^ 63 - 2 ^ 64) + 1 * 2 ^ 64) by lia.
  rewrite Z_mod_plus_full, Z.mod_small; lia.
Qed.

Lemma wrap64_under z : int_min - 2 ^ 64 ≤ z < int_min → wrap64 z = z + 2 ^ 64.
Proof.
  unfold wrap64, int_min. intros Hz.
  replace (z + 2 ^ 63) with ((z + 2 ^ 63 + 2 ^ 64) + (-1) * 2 ^ 64) by lia.
  rewrite Z_mod_plus_full, Z.mod_small; lia.
Qed.

(** X10.  What [Increment] returns is what is stored.  After a
    successful [Increment k d ttl], with a TTL of at most 9223372036
    seconds, [Get k] finds the integer that [Increment] returned and
    [GetInt k] returns it without error, whatever was stored under [k]
    before; neither changes the container. *)
Theorem X10_Increment_then_GetInt m k d ttl n m1 :
  inv m → ttl ≤ max_ttl → Increment k d ttl m = Some ((n, None), m1) →
  Get k m1 = ((VInt n, true), m1) ∧ GetInt k m1 = ((n, true, None), m1).
Proof.
  intros Hinv Hmax Hinc.
  assert (∃ e, entry m1 k = Some (VInt n, e) ∧ now m1 < e) as (e & He & Hlive).
  { destruct (Increment_keeps m k d ttl _ _ Hinv Hinc) as (Hclock & _).
    unfold now. rewrite Hclock. fold (now m).
    destruct (Increment_cases m k d ttl Hinv)
      as [[_ H]|[(Httl & _ & e & m' & He & _ & H & Hentry)|
          [(Httl & n0 & p & e & mapEl & _ & _ & He & Hk & H)|(_ & v & p & _ & _ & _ & H)]]];
      rewrite H in Hinc; try done.
    - injection Hinc as <- <-. exists e. split; [done|].
      rewrite toEpochSeconds_ok in He by lia. injection He as <-. lia.
    - injection Hinc as <- <-. exists e. split.
      + rewrite (overwrite_entry m k) by done. by case_decide.
      + rewrite toEpochSeconds_ok in He by lia. injection He as <-. lia. }
  pose proof (Get_live m1 k (VInt n) e He Hlive) as Hget.
  split; [done|]. unfold GetInt. by rewrite Hget.
Qed.

Lemma X10_Increment_then_GetInt_witness :
  ∃ m1, Increment "a" 41 5 sample = Some ((42, None), m1) ∧
        Get "a" m1 = ((VInt 42, true), m1) ∧ GetInt "a" m1 = ((42, true, None), m1).
Proof.
  eexists. split; [vm_compute; reflexivity|].
  eapply (X10_Increment_then_GetInt sample "a" 41 5).
  - apply sample_inv.
  - unfold max_ttl. lia.
  - vm_compute. reflexivity.
Defined.

(** X11.  [Increment] does not detect overflow.  On a stored integer
    [n] that has not expired, with [n] and the delta [d] both in the
    range of a 64-bit [int], the call succeeds and returns and stores
    the sum reduced into that range: [n + d - 2^64] when the sum
    exceeds the largest [int], [n + d + 2^64] when it is below the
    smallest, [n + d] otherwise. *)
Theorem X11_Increment_wraps m k n p d ttl :
  inv m → entry m k = Some (VInt n, p) → now m < p → 0 < ttl →
  int_min ≤ n ≤ int_max → int_min ≤ d ≤ int_max →
  ∃ r e m1,
    Increment k d ttl m = Some ((r, None), m1) ∧ entry m1 k = Some (VInt r, e) ∧
    int_min ≤ r ≤ int_max ∧
    r = (if decide (int_max < n + d) then n + d - 2 ^ 64
         else if decide (n + d < int_min) then n + d + 2 ^ 64
         else n + d).
Proof.
  intros Hinv He Hlive Httl Hn Hd.
  destruct (toEpochSeconds_valid m ttl Httl) as [e Hexp].
  destruct (Increment_add m k n p d ttl e Hinv He Hlive Hexp) as (m1 & Hinc & Hentry & _).
  exists (add_int n d), e, m1. split; [done|]. split; [done|].
  unfold add_int. unfold int_min, int_max in *.
  destruct (decide (2 ^ 63 - 1 < n + d)).
  - rewrite wrap64_over by (unfold int_max; lia). lia.
  - destruct (decide (n + d < - 2 ^ 63)).
    + rewrite wrap64_under by (unfold int_min; lia). lia.
    + rewrite wrap64_id by (unfold int_min, int_max; lia). lia.
Qed.

Lemma X11_Increment_wraps_witness :
  ∃ r e m1,
    Increment "a" int_max 5 sample = Some ((r, None), m1) ∧
    entry m1 "a" = Some (VInt r, e) ∧ int_min ≤ r ≤ int_max ∧
    r = (if decide (int_max < 1 + int_max) then 1 + int_max - 2 ^ 64
         else if decide (1 + int_max < int_min) then 1 + int_max + 2 ^ 64
         else 1 + int_max).
Proof.
  apply (X11_Increment_wraps sample "a" 1 10 int_max 5).
  - apply sample_inv.
  - vm_compute. reflexivity.
  - vm_compute. reflexivity.
  - lia.
  - vm_compute. split; discriminate.
  - vm_compute. split; discriminate.
Defined.

(** ** A TTL too long for [time.Duration] *)

(** X13.  For a TTL from 9223372037 to 18446744073 seconds the
    duration in nanoseconds wraps to a negative [int64].  [Set] still
    succeeds, but the expiry time it stores is not later than the
    clock: the entry has expired on arrival, and a [Get] right after
    the [Set] reports the key as not found and removes it. *)
Theorem X13_ttl_overflow_expires_at_once m k v ttl :
  inv m → max_ttl < ttl ≤ 18446744073 →
  ∃ e m1, Set_ k v ttl m = Some (None, m1) ∧ entry m1 k = Some (v, e) ∧
          e ≤ now m1 ∧ (Get k m1).1 = (VNil, false) ∧
          Len (Get k m1).2 = Len m1 - 1.
Proof.
  unfold max_ttl. intros Hinv Httl.
  destruct (Set_valid m k v ttl Hinv) as (e & m1 & He & Hset & Hentry & Hinv1); [lia|].
  destruct (Set_keeps m k v ttl None m1 Hinv Hset) as (Hclock & _).
  assert (e ≤ now m1) as Hdead.
  { unfold now. rewrite Hclock.
    unfold toEpochSeconds in He. destruct (Z.leb_spec ttl 0); [lia|].
    injection He as <-. unfold mul_duration, Second, Add, Unix.
    rewrite wrap64_over by (unfold int_max; lia).
    apply Z.div_le_mono; lia. }
  exists e, m1. split_and!; try done.
  - by apply (Get_dead m1 k v e).
  - destruct (Get_expired m1 k v e Hinv1 Hentry Hdead) as (m' & -> & _ & Hlen & _).
    done.
Qed.

Lemma X13_ttl_overflow_expires_at_once_witness :
  ∃ e m1, Set_ "k" (VInt 7) 10000000000 sample_new = Some (None, m1) ∧
          entry m1 "k" = Some (VInt 7, e) ∧ e ≤ now m1 ∧
          (Get "k" m1).1 = (VNil, false) ∧ Len (Get "k" m1).2 = Len m1 - 1.
Proof.
  apply (X13_ttl_overflow_expires_at_once sample_new "k" (VInt 7) 10000000000).
  - apply sample_new_inv.
  - unfold max_ttl. lia.
Defined.

(** ** Calls on other keys *)

(** X12.  Only [Set] and [Increment] on [k] itself change what is
    stored under [k].  Any other call ([Set] or [Increment] on another
    key, [Get] or [GetInt] on any key, [Len], a clock change) leaves the
    entry of [k] with the same value and the same expiry time, or
    removes it; it never alters it and never creates one. *)
Theorem X12_other_calls_keep_or_drop m o m' k :
  inv m → step o m = Some m' → writes k o = false →
  entry m' k = None ∨ entry m' k = entry m k.
Proof.
  intros Hinv Hstep Hw.
  assert (∀ k0, entry (Get k0 m).2 k = None ∨ entry (Get k0 m).2 k = entry m k) as Hget.
  { intros k0. pose proof (Get_cases m k0 Hinv) as H.
    destruct (entry m k0) as [[v p]|].
    - case_decide.
      + rewrite H. by right.
      + destruct H as (m1 & -> & _ & _ & Hentry & _). simpl. rewrite Hentry.
        case_decide; [by left | by right].
    - rewrite H. by right. }
  destruct o as [k0 v ttl|k0|k0 d ttl|k0| |t]; simpl in Hstep, Hw.
  - destruct (Set_ k0 v ttl m) as [[r m1]|] eqn:Hset; [|done].
    injection Hstep as <-. apply (Set_frame m k0 v ttl r m1); try done.
    intros ->. by rewrite bool_decide_eq_true_2 in Hw.
  - injection Hstep as <-. apply Hget.
  - destruct (Increment k0 d ttl m) as [[r m1]|] eqn:Hinc; [|done].
    injection Hstep as <-. apply (Increment_frame m k0 d ttl r m1); try done.
    intros ->. by rewrite bool_decide_eq_true_2 in Hw.
  - injection Hstep as <-. rewrite GetInt_state. apply Hget.
  - injection Hstep as <-. by right.
  - injection Hstep as <-. by right.
Qed.

Lemma X12_other_calls_keep_or_drop_witness :
  ∃ m', step (OSet "c" (VInt 3) 5) sample = Some m' ∧
        (entry m' "b" = None ∨ entry m' "b" = entry sample "b").
Proof.
  eexists. split; [vm_compute; reflexivity|].
  eapply (X12_other_calls_keep_or_drop sample (OSet "c" (VInt 3) 5) _ "b").
  - apply sample_inv.
  - vm_compute. reflexivity.
  - reflexivity.
Defined.

(** ** The callback *)

(** X16.  The callback is invoked by [Get] and [GetInt] only, at most
    once per call, and only for the key asked for when it is stored
    and its expiry time has been reached; it is then passed this key
    and the value stored.  Every other call, and every call on a
    container without callback, invokes nothing.  No call changes
    whether a callback is registered. *)
Theorem X16_callback_only_on_lazy_expiry m o m' :
  inv m → step o m = Some m' →
  onExpire m' = onExpire m ∧
  (fired m' = fired m ∨
   ∃ k v p, (o = OGet k ∨ o = OGetInt k) ∧ onExpire m = true ∧
            entry m k = Some (v, p) ∧ p ≤ now m ∧
            fired m' = fired m ++ [(k, v)]).
Proof.
  intros Hinv Hstep.
  assert (∀ k0, (o = OGet k0 ∨ o = OGetInt k0) →
    onExpire (Get k0 m).2 = onExpire m ∧
    (fired (Get k0 m).2 = fired m ∨
     ∃ k v p, (o = OGet k ∨ o = OGetInt k) ∧ onExpire m = true ∧
              entry m k = Some (v, p) ∧ p ≤ now m ∧
              fired (Get k0 m).2 = fired m ++ [(k, v)])) as Hget.
  { intros k0 Ho. destruct (entry m k0) as [[v p]|] eqn:He.
    - destruct (Z.le_gt_cases p (now m)) as [Hdead|Hlive].
      + destruct (Get_expired m k0 v p Hinv He Hdead)
          as (m1 & -> & _ & _ & _ & Hf & _ & _ & Hcb).
        simpl. split; [done|]. rewrite Hf.
        destruct (onExpire m) eqn:Hon; [|by left].
        right. by exists k0, v, p.
      + rewrite (Get_live m k0 v p He) by lia. simpl. split; [done | by left].
    - rewrite (Get_absent m k0) by (by apply entry_None). simpl.
      split; [done | by left]. }
  destruct o as [k0 v ttl|k0|k0 d ttl|k0| |t]; simpl in Hstep.
  - destruct (Set_ k0 v ttl m) as [[r m1]|] eqn:Hset; [|done].
    injection Hstep as <-.
    destruct (Set_keeps m k0 v ttl r m1 Hinv Hset) as (_ & ? & _ & ?).
    split; [done | by left].
  - injection Hstep as <-. apply Hget. by left.
  - destruct (Increment k0 d ttl m) as [[r m1]|] eqn:Hinc; [|done].
    injection Hstep as <-.
    destruct (Increment_keeps m k0 d ttl r m1 Hinv Hinc) as (_ & ? & _ & ?).
    split; [done | by left].
  - injection Hstep as <-. rewrite GetInt_state. apply Hget. by right.
  - injection Hstep as <-. split; [done | by left].
  - injection Hstep as <-. split; [done | by left].
Qed.

Lemma X16_callback_only_on_lazy_expiry_witness :
  ∃ m', step (OGetInt "b") (set_clock 30000000000 sample) = Some m' ∧
    onExpire m' = onExpire (set_clock 30000000000 sample) ∧
    (fired m' = fired (set_clock 30000000000 sample) ∨
     ∃ k v p, (OGetInt "b" = OGet k ∨ OGetInt "b" = OGetInt k) ∧
              onExpire (set_clock 30000000000 sample) = true ∧
              entry (set_clock 30000000000 sample) k = Some (v, p) ∧
              p ≤ now (set_clock 30000000000 sample) ∧
              fired m' = fired (set_clock 30000000000 sample) ++ [(k, v)]).
Proof.
  eexists. split; [vm_compute; reflexivity|].
  eapply (X16_callback_only_on_lazy_expiry (set_clock 30000000000 sample) (OGetInt "b")).
  - apply set_clock_inv, sample_inv.
  - vm_compute. reflexivity.
Defined.

(** ** [expireElement] *)

(** X17.  [expireElement] on the map element of a stored key removes
    the entry and returns [true]; it does not look at the expiry time.
    Called again on the same map element it finds the key gone, returns
    [false] and changes nothing: the entry is not reported to the
    callback a second time. *)
Theorem X17_expireElement_twice m k mapEl :
  inv m → elements m !! k = Some mapEl →
  (expireElement mapEl m).1 = true ∧
  entry (expireElement mapEl m).2 k = None ∧
  Len (expireElement mapEl m).2 = Len m - 1 ∧
  expireElement mapEl (expireElement mapEl m).2 = (false, (expireElement mapEl m).2).
Proof.
  intros Hinv Hk.
  destruct (inv_read m k mapEl Hinv Hk) as (Hkey & _).
  assert (∃ m2, expireElement mapEl m = (true, m2) ∧
                elements m2 = delete k (elements m) ∧
                mapElements m2 = mapElements m) as (m2 & Hrun & Hel & Hmem).
  { unfold expireElement. rewrite Hkey, Hk.
    eexists. split; [reflexivity|]. by destruct (onExpire m). }
  rewrite Hrun. simpl. split_and!; try done.
  - apply entry_None. by rewrite Hel, lookup_delete_eq.
  - unfold Len. by apply (removal_len m m2 k mapEl).
  - unfold expireElement, mapElementAt. rewrite Hmem.
    fold (mapElementAt m mapEl). by rewrite Hkey, Hel, lookup_delete_eq.
Qed.

Lemma X17_expireElement_twice_witness :
  ∃ mapEl, elements sample !! "a" = Some mapEl ∧
    (expireElement mapEl sample).1 = true ∧
    entry (expireElement mapEl sample).2 "a" = None ∧
    Len (expireElement mapEl sample).2 = Len sample - 1 ∧
    expireElement mapEl (expireElement mapEl sample).2 =
      (false, (expireElement mapEl sample).2).
Proof.
  exists 1%positive. split; [vm_compute; reflexivity|].
  apply (X17_expireElement_twice sample "a" 1%positive).
  - apply sample_inv.
  - vm_compute. reflexivity.
Defined.

(** ** [freeSpace] at its limits *)

(** X14.  [freeSpace n] with [n ≤ 0] leaves the container untouched.
    With [n] at least the number of stored entries it empties the
    container, map and queue, and stops there without panic; no
    callback is invoked. *)
Theorem X14_freeSpace_limits m n :
  inv m →
  (n ≤ 0 → freeSpace n m = Some m) ∧
  (Len m ≤ n →
   ∃ m', freeSpace n m = Some m' ∧ elements m' = ∅ ∧ expiryTimes m' = [] ∧
         Len m' = 0 ∧ fired m' = fired m).
Proof.
  intros Hinv. split.
  - intros Hn. unfold freeSpace, removeExpired.
    assert (Z.to_nat n = 0%nat) as -> by lia. simpl.
    by destruct (Z.geb_spec 0 n); [|lia].
  - unfold Len. intros Hn.
    destruct (freeSpace_evicts n m Hinv) as (m' & Hrun & E).
    pose proof (len_nonneg m) as Hpos.
    pose proof (ev_len _ _ _ E) as Hlen.
    assert (len m' = 0) as Hzero by lia.
    assert (elements m' = ∅) as Hel.
    { apply map_size_empty_inv. unfold len in Hzero. lia. }
    exists m'. split_and!; try done.
    + apply length_zero_iff_nil.
      rewrite (inv_count m' (ev_inv _ _ _ E)), Hel. apply map_size_empty.
    + apply E.
Qed.

Lemma X14_freeSpace_limits_witness :
  freeSpace 0 sample = Some sample ∧
  ∃ m', freeSpace 5 sample = Some m' ∧ elements m' = ∅ ∧ expiryTimes m' = [] ∧
        Len m' = 0 ∧ fired m' = fired sample.
Proof.
  destruct (X14_freeSpace_limits sample 0 sample_inv) as [H0 _].
  destruct (X14_freeSpace_limits sample 5 sample_inv) as [_ H5].
  split.
  - apply H0. lia.
  - apply H5. vm_compute. discriminate.
Defined.

(** ** Whole seconds *)

(** X18.  Expiry works in whole seconds of the clock, so in real time
    (nanoseconds) an entry set with a TTL of [ttl] seconds, at most
    9223372036, lives between [ttl - 1] and [ttl] seconds: [Get] finds
    it at every instant up to [ttl - 1] seconds after the [Set], and
    does not find it at any instant [ttl] seconds after the [Set] or
    later.  In between it depends on where in its second the [Set]
    fell. *)
Theorem X18_lifetime_in_real_time m k v ttl m1 t :
  inv m → ttl ≤ max_ttl → Set_ k v ttl m = Some (None, m1) →
  (t ≤ TimeProvider m + (ttl - 1) * 1000000000 →
   Get k (set_clock t m1) = ((v, true), set_clock t m1)) ∧
  (TimeProvider m + ttl * 1000000000 ≤ t →
   (Get k (set_clock t m1)).1 = (VNil, false)).
Proof.
  intros Hinv Hmax Hset.
  destruct (Set_entry m k v ttl m1 Hinv Hset) as (e & Httl & He & Hentry & _).
  rewrite toEpochSeconds_ok in He by lia. injection He as <-.
  assert (∀ s, Unix (TimeProvider m + s * 1000000000) = now m + s) as Hshift.
  { intros s. unfold now, Unix. by rewrite Z.div_add by lia. }
  split; intros Ht.
  - apply (Get_live (set_clock t m1) k v (now m + ttl)); [done|].
    change (now (set_clock t m1)) with (Unix t).
    assert (Unix t ≤ now m + (ttl - 1)); [|lia].
    rewrite <- Hshift. unfold Unix. apply Z.div_le_mono; lia.
  - apply (Get_dead (set_clock t m1) k v (now m + ttl)); [done|].
    change (now (set_clock t m1)) with (Unix t).
    rewrite <- Hshift. unfold Unix. apply Z.div_le_mono; lia.
Qed.

(** Set at 0.999999999 s for one second: found at that instant, gone
    one second later; the example after this one shows it gone after one
    nanosecond. *)
Lemma X18_lifetime_in_real_time_witness :
  ∃ m1, Set_ "k" (VInt 7) 1 (set_clock 999999999 sample_new) = Some (None, m1) ∧
        Get "k" (set_clock 999999999 m1) = ((VInt 7, true), set_clock 999999999 m1) ∧
        (Get "k" (set_clock 1999999999 m1)).1 = (VNil, false).
Proof.
  eexists. split; [vm_compute; reflexivity|].
  split.
  - eapply (X18_lifetime_in_real_time (set_clock 999999999 sample_new) "k" (VInt 7) 1).
    + apply set_clock_inv, sample_new_inv.
    + unfold max_ttl. lia.
    + vm_compute. reflexivity.
    + vm_compute. discriminate.
  - eapply (X18_lifetime_in_real_time (set_clock 999999999 sample_new) "k" (VInt 7) 1).
    + apply set_clock_inv, sample_new_inv.
    + unfold max_ttl. lia.
    + vm_compute. reflexivity.
    + vm_compute. discriminate.
Defined.

Example one_second_ttl_gone_after_a_nanosecond :
  (λ m, (Get "k" m).1)
    <$> new_then 0 2 [Clock (Some 999999999)] [OSet "k" (VInt 7) 1; OClock 1000000000]
  = Some (VNil, false).
Proof. vm_compute. reflexivity. Qed.

(** ** [GetInt] *)

(** X19.  [GetInt] changes the container exactly as [Get] does, and
    answers from what [Get] answers: a key that is not stored or has
    expired gives [(0, false)] without error, whatever type the expired
    value had; a stored integer that has not expired is returned with
    [true]; any other value that has not expired gives the type
    error. *)
Theorem X19_GetInt_cases m k :
  (GetInt k m).2 = (Get k m).2 ∧
  (GetInt k m).1 =
    match entry m k with
    | None => (0, false, None)
    | Some (v, p) =>
      if decide (now m < p) then
        match v with
        | VInt n => (n, true, None)
        | _ => (0, false, Some (TypeMismatch v))
        end
      else (0, false, None)
    end.
Proof.
  split; [apply GetInt_state|].
  unfold GetInt. destruct (entry m k) as [[v p]|] eqn:He.
  - case_decide as Hlive.
    + rewrite (Get_live m k v p He Hlive). by destruct v.
    + pose proof (Get_dead m k v p He ltac:(lia)) as Hd.
      destruct (Get k m) as [[w b] m']. simpl in Hd. by injection Hd as -> ->.
  - rewrite (Get_absent m k) by (by apply entry_None). done.
Qed.

(** * The earlier revision *)

Lemma legacy_freeSpace_one m t :
  inv (Legacy.state m) → Legacy.timeProvider m = Some t →
  ∃ s, Legacy.freeSpace 1 m = Some (Legacy.with_state s m) ∧
       evicts (Legacy.state m) s (Z.min 1 (len (Legacy.state m))).
Proof.
  intros Hinv Ht. unfold Legacy.freeSpace, Legacy.removeExpiredItems. rewrite Ht.
  destruct (removeExpired_loop_spec (Unix t) (Z.to_nat 1) 0 _ Hinv)
    as (r & s1 & Hrun & E1 & Hr & _).
  rewrite Z.add_0_l in Hrun. rewrite Hrun. cbv beta iota.
  pose proof (ev_count _ _ _ E1) as Hr0.
  pose proof (ev_len _ _ _ E1) as Hl1.
  pose proof (len_nonneg s1) as Hpos.
  destruct (Z.geb_spec r 1) as [Hge|Hlt].
  - exists s1. split; [done|].
    assert (Z.min 1 (len (Legacy.state m)) = r) as -> by lia. done.
  - unfold Legacy.removeLeastUsedItems.
    change (Legacy.state (Legacy.with_state s1 m)) with s1.
    destruct (removeLastUsed_loop_spec (Z.to_nat 1) s1 (ev_inv _ _ _ E1)) as (s2 & Hrun2 & E2).
    rewrite Hrun2. exists s2. split; [done|].
    assert (Z.min 1 (len (Legacy.state m)) = r + Z.min (Z.of_nat (Z.to_nat 1)) (len s1)) as ->
      by lia.
    by apply (evicts_trans _ _ _ _ _ E1).
Qed.

Lemma legacy_Set_spec m t k v ttl :
  inv (Legacy.state m) → Legacy.timeProvider m = Some t →
  let e := Unix (Add t (mul_duration Second ttl)) in
  ∃ s1 s2,
    evicts (Legacy.state m) s1
      (if len (Legacy.state m) >? capacity (Legacy.state m)
       then Z.min 1 (len (Legacy.state m)) else 0) ∧
    Legacy.Set_ k v ttl m = Some (Legacy.with_state s2 m) ∧
    inv s2 ∧ capacity s2 = capacity (Legacy.state m) ∧
    len s2 = len s1 + match elements s1 !! k with Some _ => 0 | None => 1 end ∧
    ∀ k', entry s2 k' = if decide (k' = k) then Some (v, e) else entry s1 k'.
Proof.
  intros Hinv Ht e. unfold Legacy.Set_.
  assert (∃ s1, (if len (Legacy.state m) >? capacity (Legacy.state m)
                 then Legacy.freeSpace 1 m else Some m) = Some (Legacy.with_state s1 m) ∧
                evicts (Legacy.state m) s1
                  (if len (Legacy.state m) >? capacity (Legacy.state m)
                   then Z.min 1 (len (Legacy.state m)) else 0)) as (s1 & -> & E).
  { destruct (len (Legacy.state m) >? capacity (Legacy.state m)).
    - by apply (legacy_freeSpace_one m t).
    - exists (Legacy.state m). split; [destruct m; reflexivity | by apply evicts_refl]. }
  simpl. rewrite Ht. fold e.
  pose proof (ev_inv _ _ _ E) as Hinv1.
  destruct (elements s1 !! k) as [item|] eqn:Hk.
  - exists s1, (overwrite item v e s1). rewrite Hk. split_and!; try done.
    + by apply (overwrite_inv s1 k).
    + apply E.
    + rewrite (overwrite_len s1 item v e). lia.
    + intros k'. by apply (overwrite_entry s1 k).
  - exists s1, (insert_new k v e s1). rewrite Hk. split_and!; try done.
    + by apply insertion_inv.
    + apply E.
    + by apply insertion_len.
    + intros k'. by apply insertion_entry.
Qed.

(** X20.  The constructor of the earlier revision installs no time
    provider.  On the container it returns, [Get] of any key answers
    with the nil item and [false] and changes nothing, but every [Set]
    panics on the nil provider, whatever its arguments. *)
Theorem X20_legacy_NewMap_without_provider c m :
  Legacy.NewMap c = inr m →
  0 < c ∧ Legacy.timeProvider m = None ∧
  (∀ k, Legacy.Get k m = Some ((Legacy.NilMapItem, false), m)) ∧
  (∀ k v ttl, Legacy.Set_ k v ttl m = None).
Proof.
  unfold Legacy.NewMap. destruct (Z.leb_spec c 0); [done|]. intros [= <-].
  split_and!; try done.
  intros k v ttl. unfold Legacy.Set_. cbn [Legacy.state capacity].
  assert (len (mkState c ∅ NewMinHeap 0 false ∅ ∅ []) = 0) as -> by reflexivity.
  by destruct (Z.gtb_spec 0 c); [lia|].
Qed.

Lemma X20_legacy_NewMap_without_provider_witness :
  ∃ m, Legacy.NewMap 2 = inr m ∧ Legacy.timeProvider m = None ∧
       (∀ k, Legacy.Get k m = Some ((Legacy.NilMapItem, false), m)) ∧
       (∀ k v ttl, Legacy.Set_ k v ttl m = None).
Proof.
  eexists. split; [reflexivity|].
  eapply (X20_legacy_NewMap_without_provider 2). reflexivity.
Defined.

(** X21.  In the earlier revision [Set] frees a slot only when the
    container already holds more entries than its capacity.  A [Set]
    of a new key on a container that holds up to [capacity] entries,
    a full one included, therefore evicts nothing: every entry is
    kept and [Len] grows by one, to [capacity + 1] on a full
    container. *)
Theorem X21_legacy_Set_on_full_container m t k v ttl :
  inv (Legacy.state m) → Legacy.timeProvider m = Some t →
  len (Legacy.state m) ≤ capacity (Legacy.state m) →
  elements (Legacy.state m) !! k = None →
  ∃ m1, Legacy.Set_ k v ttl m = Some m1 ∧
        len (Legacy.state m1) = len (Legacy.state m) + 1 ∧
        ∀ k', entry (Legacy.state m1) k' =
              if decide (k' = k) then Some (v, Unix (Add t (mul_duration Second ttl)))
              else entry (Legacy.state m) k'.
Proof.
  intros Hinv Ht Hroom Hk. unfold Legacy.Set_.
  destruct (Z.gtb_spec (len (Legacy.state m)) (capacity (Legacy.state m))); [lia|].
  rewrite Ht, Hk. eexists. split; [reflexivity|]. simpl. split.
  - by apply insertion_len.
  - intros k'. by apply insertion_entry.
Qed.

Lemma legacy_sample_inv : inv (Legacy.state Legacy.sample).
Proof. by apply (NewMap_inv 0 1 []). Qed.

Lemma legacy_sample_full_inv : inv (Legacy.state Legacy.sample_full).
Proof.
  destruct (legacy_Set_spec Legacy.sample 0 "a" (VInt 1) 10 legacy_sample_inv eq_refl)
    as (s1 & s2 & _ & Hset & Hinv & _).
  unfold Legacy.sample_full. by rewrite Hset.
Qed.

(** Capacity 1 and ["a"] stored: [Set "b"] makes two entries. *)
Lemma X21_legacy_Set_on_full_container_witness :
  len (Legacy.state Legacy.sample_full) = capacity (Legacy.state Legacy.sample_full) ∧
  ∃ m1, Legacy.Set_ "b" (VInt 2) 5 Legacy.sample_full = Some m1 ∧
        len (Legacy.state m1) = len (Legacy.state Legacy.sample_full) + 1 ∧
        ∀ k', entry (Legacy.state m1) k' =
              if decide (k' = "b") then Some (VInt 2, Unix (Add 0 (mul_duration Second 5)))
              else entry (Legacy.state Legacy.sample_full) k'.
Proof.
  split; [vm_compute; reflexivity|].
  apply (X21_legacy_Set_on_full_container Legacy.sample_full 0 "b" (VInt 2) 5).
  - apply legacy_sample_full_inv.
  - vm_compute. reflexivity.
  - vm_compute. discriminate.
  - vm_compute. reflexivity.
Defined.

Lemma legacy_Get_cases m k :
  inv (Legacy.state m) →
  match entry (Legacy.state m) k with
  | None => Legacy.Get k m = Some ((Legacy.NilMapItem, false), m)
  | Some (v, p) =>
    match Legacy.timeProvider m with
    | None => Legacy.Get k m = None
    | Some t =>
      if decide (Unix t < p) then Legacy.Get k m = Some ((Legacy.Stored v, true), m)
      else ∃ s, Legacy.Get k m = Some ((Legacy.Stored VNil, false), Legacy.with_state s m) ∧
                inv s ∧ len s = len (Legacy.state m) - 1 ∧
                capacity s = capacity (Legacy.state m) ∧
                ∀ k', entry s k' = if decide (k' = k) then None else entry (Legacy.state m) k'
    end
  end.
Proof.
  intros Hinv. unfold Legacy.Get.
  destruct (entry (Legacy.state m) k) as [[v p]|] eqn:He.
  - apply entry_Some in He as (item & Hk & Hv & Hp).
    destruct (inv_read _ k item Hinv Hk) as (Hkey & _).
    rewrite Hk. unfold Legacy.expireItem.
    destruct (Legacy.timeProvider m) as [t|]; [|done].
    rewrite Hp. case_decide as Hlive.
    + destruct (Z.gtb_spec p (Unix t)); [|lia]. by rewrite Hv.
    + destruct (Z.gtb_spec p (Unix t)); [lia|]. rewrite Hkey.
      eexists. split; [reflexivity|]. split_and!.
      * by apply (removal_inv (Legacy.state m) _ k item).
      * by apply (removal_len (Legacy.state m) _ k item).
      * done.
      * intros k'. by apply (removal_entry (Legacy.state m) _ k).
  - apply entry_None in He. by rewrite He.
Qed.

Lemma legacy_step_inv o m t :
  inv (Legacy.state m) → Legacy.timeProvider m = Some t →
  Legacy.keeps_provider o = true → 0 < capacity (Legacy.state m) →
  ∃ m1 t1, Legacy.step o m = Some m1 ∧ inv (Legacy.state m1) ∧
           Legacy.timeProvider m1 = Some t1 ∧
           capacity (Legacy.state m1) = capacity (Legacy.state m) ∧
           (len (Legacy.state m) ≤ capacity (Legacy.state m) + 1 →
            len (Legacy.state m1) ≤ capacity (Legacy.state m1) + 1).
Proof.
  intros Hinv Ht Ho Hc. destruct o as [k v ttl|k|[t'|]]; simpl; try done.
  - destruct (legacy_Set_spec m t k v ttl Hinv Ht) as (s1 & s2 & E & Hset & Hinv2 & Hcap & Hlen & _).
    exists (Legacy.with_state s2 m), t. split_and!; try done.
    simpl. rewrite Hcap, Hlen. pose proof (ev_len _ _ _ E) as Hl1.
    intros Hb.
    destruct (Z.gtb_spec (len (Legacy.state m)) (capacity (Legacy.state m)));
      destruct (elements s1 !! k); lia.
  - pose proof (legacy_Get_cases m k Hinv) as H.
    destruct (entry (Legacy.state m) k) as [[v p]|].
    + rewrite Ht in H. case_decide.
      * rewrite H. simpl. by exists m, t.
      * destruct H as (s & -> & Hinv' & Hlen & Hcap & _). simpl.
        exists (Legacy.with_state s m), t. split_and!; try done.
        simpl. rewrite Hcap, Hlen. lia.
    + rewrite H. simpl. by exists m, t.
  - eexists _, t'. by split_and!.
Qed.

(** X22.  In the earlier revision the stated capacity can be exceeded
    by one and no more.  Take a container from its [NewMap], install a
    provider, and run any sequence of [Set] and [Get] calls and provider
    changes that never set the provider back to nil: no call panics,
    and the container never holds more than [capacity + 1] entries. *)
Theorem X22_legacy_capacity_plus_one c m0 t ops :
  Legacy.NewMap c = inr m0 →
  forallb Legacy.keeps_provider ops = true →
  ∃ m, Legacy.run (Legacy.OProvider (Some t) :: ops) m0 = Some m ∧
       inv (Legacy.state m) ∧
       capacity (Legacy.state m) = c ∧
       len (Legacy.state m) ≤ c + 1.
Proof.
  intros Hnew Hops.
  assert (∀ ops m t, forallb Legacy.keeps_provider ops = true →
            inv (Legacy.state m) → Legacy.timeProvider m = Some t →
            0 < capacity (Legacy.state m) →
            len (Legacy.state m) ≤ capacity (Legacy.state m) + 1 →
            ∃ m', Legacy.run ops m = Some m' ∧ inv (Legacy.state m') ∧
                  capacity (Legacy.state m') = capacity (Legacy.state m) ∧
                  len (Legacy.state m') ≤ capacity (Legacy.state m') + 1) as Hrun.
  { clear. induction ops as [|o rest IH]; intros m t Hops Hinv Ht Hc Hb; simpl.
    - by exists m.
    - simpl in Hops. apply andb_true_iff in Hops as [Ho Hrest].
      destruct (legacy_step_inv o m t Hinv Ht Ho Hc) as (m1 & t1 & -> & Hinv1 & Ht1 & Hc1 & Hb1).
      destruct (IH m1 t1 Hrest Hinv1 Ht1) as (m' & ? & ? & Hc' & ?); [lia | auto |].
      exists m'. split_and!; try done. congruence. }
  unfold Legacy.NewMap in Hnew. destruct (Z.leb_spec c 0); [done|].
  injection Hnew as <-. simpl.
  destruct (Hrun ops (Legacy.mkTtlMap (mkState c ∅ NewMinHeap 0 false ∅ ∅ []) (Some t)) t)
    as (m & ? & ? & Hc & Hb); try done.
  - apply (NewMap_inv 0 c []). unfold NewMap. by destruct (Z.leb_spec c 0); [lia|].
  - simpl. unfold len. simpl. rewrite map_size_empty. lia.
  - exists m. simpl in Hc, Hb. split_and!; try done. lia.
Qed.

(** Capacity 1: two keys fit, the third [Set] evicts. *)
Lemma X22_legacy_capacity_plus_one_witness :
  ∃ m, Legacy.run [Legacy.OProvider (Some 0); Legacy.OSet "a" (VInt 1) 10;
                   Legacy.OSet "b" (VInt 2) 5; Legacy.OGet "a";
                   Legacy.OSet "c" (VInt 3) 10]
         (Legacy.mkTtlMap (mkState 1 ∅ NewMinHeap 0 false ∅ ∅ []) None) = Some m ∧
       inv (Legacy.state m) ∧ capacity (Legacy.state m) = 1 ∧
       len (Legacy.state m) ≤ 1 + 1.
Proof.
  apply (X22_legacy_capacity_plus_one 1 _ 0); reflexivity.
Defined.

Example legacy_two_entries_at_capacity_one :
  (λ m, len (Legacy.state m))
    <$> Legacy.run [Legacy.OProvider (Some 0); Legacy.OSet "a" (VInt 1) 10;
                    Legacy.OSet "b" (VInt 2) 5]
          (Legacy.mkTtlMap (mkState 1 ∅ NewMinHeap 0 false ∅ ∅ []) None)
  = Some 2.
Proof. vm_compute. reflexivity. Qed.

(** X23.  The earlier revision does not check the TTL.  With a TTL
    from -9223372036 to 0 seconds [Set] stores the entry like any
    other, with an expiry time that is not later than the clock; the
    next [Get] of the key reports it as not found and removes it. *)
Theorem X23_legacy_nonpositive_ttl m t k v ttl :
  inv (Legacy.state m) → Legacy.timeProvider m = Some t →
  - max_ttl ≤ ttl ≤ 0 →
  ∃ m1 m2, Legacy.Set_ k v ttl m = Some m1 ∧
           entry (Legacy.state m1) k = Some (v, Unix t + ttl) ∧
           Legacy.Get k m1 = Some ((Legacy.Stored VNil, false), m2) ∧
           entry (Legacy.state m2) k = None.
Proof.
  unfold max_ttl. intros Hinv Ht Httl.
  destruct (legacy_Set_spec m t k v ttl Hinv Ht) as (s1 & s2 & _ & Hset & Hinv2 & _ & _ & Hentry).
  assert (Unix (Add t (mul_duration Second ttl)) = Unix t + ttl) as He.
  { unfold mul_duration. rewrite wrap64_id by (unfold int_min, int_max, Second; lia).
    apply Unix_add_seconds. }
  rewrite He in Hentry.
  pose proof (legacy_Get_cases (Legacy.with_state s2 m) k Hinv2) as Hget.
  simpl in Hget. rewrite Hentry in Hget.
  destruct (decide (k = k)); [|done]. rewrite Ht in Hget.
  destruct (decide (Unix t < Unix t + ttl)); [lia|].
  destruct Hget as (s & Hget & _ & _ & _ & Hgone).
  exists (Legacy.with_state s2 m), (Legacy.with_state s (Legacy.with_state s2 m)).
  split_and!; try done.
  - simpl. rewrite Hentry. by case_decide.
  - simpl. rewrite Hgone. by case_decide.
Qed.

Lemma X23_legacy_nonpositive_ttl_witness :
  ∃ m1 m2, Legacy.Set_ "z" (VInt 0) (-3) Legacy.sample_full = Some m1 ∧
           entry (Legacy.state m1) "z" = Some (VInt 0, Unix 0 + -3) ∧
           Legacy.Get "z" m1 = Some ((Legacy.Stored VNil, false), m2) ∧
           entry (Legacy.state m2) "z" = None.
Proof.
  apply (X23_legacy_nonpositive_ttl Legacy.sample_full 0 "z" (VInt 0) (-3)).
  - apply legacy_sample_full_inv.
  - vm_compute. reflexivity.
  - unfold max_ttl. lia.
Defined.

(** X24.  [Get] of the earlier revision, case by case.  A key that is
    not stored gives the nil item and [false], with or without
    provider.  For a stored key the clock is read, which panics while
    the provider is nil; a key whose expiry time is later than the
    clock is found with its value and nothing changes; otherwise nil
    and [false] are returned, the entry is removed, [Len] drops by one
    and every other key keeps its entry. *)
Theorem X24_legacy_Get_effect m k :
  inv (Legacy.state m) →
  match entry (Legacy.state m) k with
  | None => Legacy.Get k m = Some ((Legacy.NilMapItem, false), m)
  | Some (v, p) =>
    match Legacy.timeProvider m with
    | None => Legacy.Get k m = None
    | Some t =>
      if decide (Unix t < p) then Legacy.Get k m = Some ((Legacy.Stored v, true), m)
      else ∃ s, Legacy.Get k m = Some ((Legacy.Stored VNil, false), Legacy.with_state s m) ∧
                inv s ∧ len s = len (Legacy.state m) - 1 ∧
                capacity s = capacity (Legacy.state m) ∧
                ∀ k', entry s k' = if decide (k' = k) then None else entry (Legacy.state m) k'
    end
  end.
Proof. apply legacy_Get_cases. Qed.

Lemma X24_legacy_Get_effect_witness :
  Legacy.Get "a" Legacy.sample_full =
  Some ((Legacy.Stored (VInt 1), true), Legacy.sample_full).
Proof.
  pose proof (X24_legacy_Get_effect Legacy.sample_full "a" legacy_sample_full_inv) as H.
  assert (entry (Legacy.state Legacy.sample_full) "a" = Some (VInt 1, 10)) as He
    by (vm_compute; reflexivity).
  rewrite He in H. exact H.
Defined.
